(** * Poetry-Checker: a shallow embedding of [poetry_functions.py]

    The Python functions of [src/poetry_functions.py] are transcribed as
    Rocq functions over the following data model.

    - [str] is [string]. Its characters are those of [Ascii.ascii],
      read as the code points 0 to 255. [str.split()] and [str.strip()]
      take as whitespace every code point of that range that Python
      does: the codes 9 to 13, 28 to 32, 133 and 160. [str.upper] maps
      the letters [a]..[z] and leaves the other characters as they are.
    - a Python [int] used as an index or as a required syllable count is
      a [Z]; sequence indexing follows Python (a negative index counts
      from the end, an index out of range raises [IndexError]).
    - a function that may raise returns an [option], and [None] stands
      for the raised exception. The only one the functions of
      [poetry_functions.py] can raise is [IndexError]: every dictionary
      read is guarded by a membership test.
    - [PRONUNCIATION_DICT] is a [gmap string (list string)].
    - the dictionary built by [get_rhyme_label_to_lines] is kept as an
      association list in insertion order, because [check_rhyme_scheme]
      iterates over its [items()]. *)

From Stdlib Require Import ZArith Ascii String List Lia.
From stdpp Require Import base option list gmap strings fin_maps sorting.

Local Open Scope string_scope.
Local Open Scope list_scope.
Local Open Scope Z_scope.

(** ** Type aliases of [poetry_constants] *)

Abbreviation POEM_LINE := string (only parsing).
Abbreviation POEM := (list string) (only parsing).
Abbreviation PHONEMES := (list string) (only parsing).
Abbreviation PRONUNCIATION_DICT := (gmap string (list string)) (only parsing).
Abbreviation POETRY_FORM_DESCRIPTION := (list Z * list string)%type (only parsing).

(** ** Python primitives *)

Module Py.

(** [xs[i]] for a Python sequence. *)
Definition getitem {A} (xs : list A) (i : Z) : option A :=
  if bool_decide (0 ≤ i) then xs !! Z.to_nat i
  else if bool_decide (0 ≤ i + Z.of_nat (length xs))
       then xs !! Z.to_nat (i + Z.of_nat (length xs))
       else None.

(** [xs[i:]]. *)
Definition slice_from {A} (xs : list A) (i : Z) : list A :=
  if bool_decide (0 ≤ i) then drop (Z.to_nat i) xs
  else drop (Z.to_nat (i + Z.of_nat (length xs))) xs.

(** [range(n)] and [range(n - 1, -1, -1)]. *)
Definition range (n : nat) : list Z := Z.of_nat <$> seq 0 n.
Definition range_down (n : nat) : list Z := reverse (range n).

(** [for x in xs: s = body(s, x)] where the body may raise. *)
Fixpoint for_ {S A} (xs : list A) (body : S → A → option S) (s : S)
  : option S :=
  match xs with
  | [] => Some s
  | x :: xs' => s' ← body s x; for_ xs' body s'
  end.

(** The same loop with a body that may also [return]. *)
Inductive flow (R S : Type) : Type :=
  | Return (r : R)
  | Continue (s : S).
Arguments Return {R S} r.
Arguments Continue {R S} s.

Fixpoint for_ret {R S A} (xs : list A) (body : S → A → option (flow R S))
  (s : S) : option (flow R S) :=
  match xs with
  | [] => Some (Continue s)
  | x :: xs' =>
      r ← body s x;
      match r with
      | Return v => Some (Return v)
      | Continue s' => for_ret xs' body s'
      end
  end.

(** A [dict] whose iteration order matters: the items in insertion
    order, one per key. *)
Definition odict (K V : Type) : Type := list (K * V).

Definition contains `{EqDecision K} {V} (d : odict K V) (k : K) : bool :=
  bool_decide (k ∈ d.*1).

(** [d[k]]; [None] is the [KeyError]. *)
Fixpoint get `{EqDecision K} {V} (d : odict K V) (k : K) : option V :=
  match d with
  | [] => None
  | (k', v) :: d' => if decide (k = k') then Some v else get d' k
  end.

(** [d[k] = v]: overwrite in place, or insert at the end. *)
Fixpoint set `{EqDecision K} {V} (d : odict K V) (k : K) (v : V)
  : odict K V :=
  match d with
  | [] => [(k, v)]
  | (k', v') :: d' =>
      if decide (k = k') then (k', v) :: d' else (k', v') :: set d' k v
  end.

(** The keys of a [gmap] dictionary, as [for k in d] visits them. The
    order of the visit is not modelled: the callers only count keys. *)
Definition keys {V} (d : gmap string V) : list string := (map_to_list d).*1.

(** Characters of a [str]. *)
Definition chars (s : string) : list ascii := list_ascii_of_string s.
Definition str (cs : list ascii) : string := string_of_list_ascii cs.

(** [str.upper] on one character. *)
Definition upper_char (c : ascii) : ascii :=
  let n := nat_of_ascii c in
  if bool_decide (97 ≤ n ≤ 122)%nat then ascii_of_nat (n - 32) else c.

Definition upper (s : string) : string := str (upper_char <$> chars s).

(** [str.lstrip(cs)], [str.rstrip(cs)], [str.strip(cs)] on characters. *)
Fixpoint lstrip_chars (cs : list ascii) (s : list ascii) : list ascii :=
  match s with
  | [] => []
  | c :: s' => if bool_decide (c ∈ cs) then lstrip_chars cs s' else s
  end.

Definition rstrip_chars (cs s : list ascii) : list ascii :=
  reverse (lstrip_chars cs (reverse s)).

Definition strip (s : string) (cs : string) : string :=
  str (rstrip_chars (chars cs) (lstrip_chars (chars cs) (chars s))).

(** Whitespace as [str.split()] sees it: TAB, LF, VT, FF, CR, the
    separators FS, GS, RS, US, the space, and above the ASCII range the
    next-line character (code 133) and the no-break space (code 160). *)
Definition is_space (c : ascii) : bool :=
  let n := nat_of_ascii c in
  bool_decide (9 ≤ n ≤ 13)%nat || bool_decide (28 ≤ n ≤ 32)%nat
  || bool_decide (n = 133)%nat || bool_decide (n = 160)%nat.

(** [str.split()]: the maximal runs of non-whitespace characters.
    [cur] holds the run being read, last character first. *)
Fixpoint split_chars (cur : list ascii) (s : list ascii)
  : list (list ascii) :=
  match s with
  | [] => match cur with [] => [] | _ => [reverse cur] end
  | c :: s' =>
      if is_space c then
        match cur with
        | [] => split_chars [] s'
        | _ => reverse cur :: split_chars [] s'
        end
      else split_chars (c :: cur) s'
  end.

Definition split (s : string) : list string :=
  str <$> split_chars [] (chars s).

(** [s.startswith(p)]. *)
Fixpoint startswith_chars (s p : list ascii) : bool :=
  match p, s with
  | [], _ => true
  | _ :: _, [] => false
  | c :: p', d :: s' => bool_decide (c = d) && startswith_chars s' p'
  end.

Definition startswith (s p : string) : bool :=
  startswith_chars (chars s) (chars p).

(** [str.strip()] without argument strips the whitespace of [is_space]. *)
Definition whitespace : list ascii :=
  ascii_of_nat <$> [9; 10; 11; 12; 13; 28; 29; 30; 31; 32; 133; 160]%nat.

Definition strip_ws (s : string) : string :=
  str (rstrip_chars whitespace (lstrip_chars whitespace (chars s))).

(** A reading of decimal literals (an optional sign, then digits), used
    where an example needs [int()]. The functions that call [int()] take
    it as an argument. *)
Fixpoint digits_value (acc : Z) (cs : list ascii) : option Z :=
  match cs with
  | [] => Some acc
  | c :: cs' =>
      let n := nat_of_ascii c in
      if bool_decide (48 ≤ n ≤ 57)%nat
      then digits_value (10 * acc + Z.of_nat (n - 48)) cs'
      else None
  end.

Definition int_decimal (s : string) : option Z :=
  match chars s with
  | [] => None
  | c :: ds =>
      if bool_decide (c = "-"%char) then
        match ds with [] => None | _ => Z.opp <$> digits_value 0 ds end
      else if bool_decide (c = "+"%char) then
        match ds with [] => None | _ => digits_value 0 ds end
      else digits_value 0 (c :: ds)
  end.

End Py.

(** ** [transform_string] *)

(** The characters of the [punctuation] literal. The double quote and
    the control characters are given by their codes. *)
Definition punctuation : string :=
  "!" +:+ String (ascii_of_nat 34) "'`@$%^&_-+={}|\/,;:.-?)([]<>*#"
      +:+ String (ascii_of_nat 10)
           (String (ascii_of_nat 9) (String (ascii_of_nat 13) "")).

Definition transform_string (s : string) : string :=
  let result := Py.strip (Py.upper s) punctuation in
  result.

(** ** [is_vowel_phoneme] *)

Definition is_vowel_phoneme (phoneme : string) : option bool :=
  c ← Py.getitem (Py.chars phoneme) (-1);
  Some (bool_decide (c ∈ Py.chars "012")).

(** ** [get_syllable_count] *)

Definition get_syllable_count (poem_line : POEM_LINE)
  (word_to_phonemes : PRONUNCIATION_DICT) : option Z :=
  let poem_lines := transform_string poem_line in
  Py.for_ (Py.chars poem_lines)
    (λ count i,
       if bool_decide (is_Some (word_to_phonemes !! Py.str [i])) then
         Py.for_ (Py.keys word_to_phonemes)
           (λ count j,
              v ← is_vowel_phoneme j;
              Some (if v : bool then count + 1 else count))
           count
       else Some count)
    0.

(** ** [check_syllable_counts] *)

(** The test of one line against its required count. *)
Definition flag_line (word_to_phonemes : PRONUNCIATION_DICT)
  (invalid_lines : list POEM_LINE) (line_req : POEM_LINE * Z)
  : option (list POEM_LINE) :=
  let '(line, req_syllables) := line_req in
  if bool_decide (req_syllables ≠ 0) then
    actual_syllables ← get_syllable_count line word_to_phonemes;
    if bool_decide (actual_syllables ≠ req_syllables)
    then Some (invalid_lines ++ [line])
    else Some invalid_lines
  else Some invalid_lines.

(** The body of the loop over [range(len(poem_lines))]: the two reads,
    then the test of the line. *)
Definition check_line (poem_lines : POEM) (syllable_counts : list Z)
  (word_to_phonemes : PRONUNCIATION_DICT)
  (invalid_lines : list POEM_LINE) (i : Z) : option (list POEM_LINE) :=
  line ← Py.getitem poem_lines i;
  req_syllables ← Py.getitem syllable_counts i;
  flag_line word_to_phonemes invalid_lines (line, req_syllables).

Definition check_syllable_counts (poem_lines : POEM)
  (description : POETRY_FORM_DESCRIPTION)
  (word_to_phonemes : PRONUNCIATION_DICT) : option (list POEM_LINE) :=
  let syllable_counts := description.1 in
  Py.for_ (Py.range (length poem_lines))
    (check_line poem_lines syllable_counts word_to_phonemes) [].

(** ** [get_last_syllable] *)

Definition get_last_syllable (word_phonemes : PHONEMES) : option PHONEMES :=
  r ← Py.for_ret (Py.range_down (length word_phonemes))
        (λ (_ : unit) i,
           p ← Py.getitem word_phonemes i;
           v ← is_vowel_phoneme p;
           if v : bool then Some (Py.Return (Py.slice_from word_phonemes i))
           else Some (Py.Continue ()))
        ();
  match r with
  | Py.Return syll => Some syll
  | Py.Continue _ => Some []
  end.

(** ** [words_rhyme] *)

Definition words_rhyme (word1 word2 : string)
  (word_to_phonemes : PRONUNCIATION_DICT) : option bool :=
  let word1 := transform_string word1 in
  let word2 := transform_string word2 in
  match word_to_phonemes !! word1, word_to_phonemes !! word2 with
  | Some phoneme1, Some phoneme2 =>
      last_syll1 ← get_last_syllable phoneme1;
      last_syll2 ← get_last_syllable phoneme2;
      Some (bool_decide (last_syll1 = last_syll2))
  | _, _ => Some false
  end.

(** ** [all_lines_rhyme] *)

Definition all_lines_rhyme (poem_lines : POEM) (lines_to_check : list Z)
  (word_to_phonemes : PRONUNCIATION_DICT) : option bool :=
  r ← Py.for_ret lines_to_check
        (λ last i,
           line ← Py.getitem poem_lines i;
           w ← Py.getitem (Py.split line) (-1);
           let ending_word := transform_string w in
           match word_to_phonemes !! ending_word with
           | None => Some (Py.Return false)
           | Some phonemes =>
               syll ← get_last_syllable phonemes;
               Some (Py.Continue (last ++ [syll]))
           end)
        [];
  match r with
  | Py.Return b => Some b
  | Py.Continue last =>
      r' ← Py.for_ret last
             (λ (_ : unit) j,
                first ← Py.getitem last 0;
                if bool_decide (j ≠ first) then Some (Py.Return false)
                else Some (Py.Continue ()))
             ();
      match r' with
      | Py.Return b => Some b
      | Py.Continue _ => Some true
      end
  end.

(** ** [get_rhyme_label_to_lines] *)

(** The body of the loop over [range(len(rhyme_scheme))]. *)
Definition label_step (rhyme_scheme : list string)
  (labels : Py.odict string (list Z)) (i : Z)
  : option (Py.odict string (list Z)) :=
  label ← Py.getitem rhyme_scheme i;
  let labels :=
    if negb (Py.contains labels label) then Py.set labels label []
    else labels in
  js ← Py.get labels label;
  Some (Py.set labels label (js ++ [i])).

Definition get_rhyme_label_to_lines (rhyme_scheme : list string)
  : option (Py.odict string (list Z)) :=
  Py.for_ (Py.range (length rhyme_scheme)) (label_step rhyme_scheme) [].

(** ** [check_rhyme_scheme] *)

(** The body of the loop over [labels.items()]. *)
Definition check_group (poem_lines : POEM)
  (word_to_phonemes : PRONUNCIATION_DICT)
  (bad_lines : list (list POEM_LINE)) (item : string * list Z)
  : option (list (list POEM_LINE)) :=
  let '(label, j) := item in
  if bool_decide (label ≠ "*") then
    line ← mapM (Py.getitem poem_lines) j;
    ok ← all_lines_rhyme poem_lines j word_to_phonemes;
    let bad_lines := if negb ok then bad_lines ++ [line] else bad_lines in
    ok' ← all_lines_rhyme poem_lines j word_to_phonemes;
    let bad_lines := if negb ok' then bad_lines ++ [line] else bad_lines in
    Some bad_lines
  else Some bad_lines.

Definition check_rhyme_scheme (poem_lines : POEM)
  (description : POETRY_FORM_DESCRIPTION)
  (word_to_phonemes : PRONUNCIATION_DICT)
  : option (list (list POEM_LINE)) :=
  let rhyme_scheme := description.2 in
  labels ← get_rhyme_label_to_lines rhyme_scheme;
  Py.for_ labels (check_group poem_lines word_to_phonemes) [].

(** ** The dictionaries and poems of the docstrings *)

Definition small_dict : PRONUNCIATION_DICT :=
  list_to_map
    [("THEN", ["DH"; "EH1"; "N"]);
     ("ENDS", ["EH1"; "N"; "D"; "Z"]);
     ("THE", ["DH"; "AH0"]);
     ("POEM", ["P"; "OW1"; "AH0"; "M"])].

Definition example_dict : PRONUNCIATION_DICT :=
  list_to_map
    [("NEXT", ["N"; "EH1"; "K"; "S"; "T"]);
     ("GAP", ["G"; "AE1"; "P"]);
     ("BEFORE", ["B"; "IH0"; "F"; "AO1"; "R"]);
     ("LEADS", ["L"; "IY1"; "D"; "Z"]);
     ("WITH", ["W"; "IH1"; "DH"]);
     ("LINE", ["L"; "AY1"; "N"]);
     ("THEN", ["DH"; "EH1"; "N"]);
     ("THE", ["DH"; "AH0"]);
     ("A", ["AH0"]);
     ("FIRST", ["F"; "ER1"; "S"; "T"]);
     ("ENDS", ["EH1"; "N"; "D"; "Z"]);
     ("POEM", ["P"; "OW1"; "AH0"; "M"]);
     ("OFF", ["AO1"; "F"])].

Definition example_poem : POEM :=
  ["The first line leads off,";
   "With a gap before the next.";
   "Then the poem ends."].

Definition mouse_dict : PRONUNCIATION_DICT :=
  list_to_map
    [("THE", ["DH"; "AH0"]);
     ("MOUSE", ["M"; "AW1"; "S"]);
     ("IN", ["IH0"; "N"]);
     ("MY", ["M"; "AY1"]);
     ("HOUSE", ["HH"; "AW1"; "S"]);
     ("ELECTRIC", ["IH0"; "L"; "EH1"; "K"; "T"; "R"; "IH0"; "K"])].

Definition mouse_poem : POEM := ["The mouse"; "in my house"; "electric."].

Definition thine_dict : PRONUNCIATION_DICT :=
  list_to_map
    [("THINE", ["DH"; "AY1"; "N"]);
     ("DEVINE", ["D"; "AH0"; "V"; "AY1"; "N"]);
     ("HEARD", ["HH"; "ER1"; "D"])].

(** Two words without a vowel phoneme. *)
Definition consonant_dict : PRONUNCIATION_DICT :=
  list_to_map [("HMM", ["HH"; "M"]); ("SHH", ["SH"])].

(** The two rhyming words of [mouse_dict] alone. *)
Definition rhyming_dict : PRONUNCIATION_DICT :=
  list_to_map
    [("MOUSE", ["M"; "AW1"; "S"]);
     ("HOUSE", ["HH"; "AW1"; "S"])].

(** ** [poetry_reader.py] *)

(** An open text file is the list of the lines that iterating over it
    yields, each with its line end if it has one. [int()] is an argument
    of [read_poetry_form_descriptions]: [None] is its [ValueError]. *)

(** The body of the loop of [read_pronunciation]. *)
Definition pronunciation_step (pronunciation_dict : PRONUNCIATION_DICT)
  (line : string) : option PRONUNCIATION_DICT :=
  if negb (Py.startswith line ";;;") then
    let parts := Py.split (Py.strip_ws line) in
    word ← Py.getitem parts 0;
    let phonemes := Py.slice_from parts 1 in
    Some (<[word := phonemes]> pronunciation_dict)
  else Some pronunciation_dict.

Definition read_pronunciation (pronunciation_file : list string)
  : option PRONUNCIATION_DICT :=
  Py.for_ pronunciation_file pronunciation_step ∅.

(** The variables of the loop of [read_poetry_form_descriptions]. *)
Record forms_state : Type := FormsState {
  poetry_dict : gmap string (list Z * list string);
  poetry_name : string;
  count : list Z;
  rhyme : list string
}.

(** The body of that loop. *)
Definition forms_step (int : string → option Z) (st : forms_state)
  (line : string) : option forms_state :=
  let new_line := Py.strip_ws line in
  if bool_decide (new_line = "") then
    if bool_decide (poetry_name st ≠ "") then
      Some (FormsState
              (<[poetry_name st := (count st, rhyme st)]> (poetry_dict st))
              "" [] [])
    else Some st
  else if bool_decide (poetry_name st = "") then
    Some (FormsState (poetry_dict st) new_line (count st) (rhyme st))
  else
    let parts := Py.split new_line in
    p0 ← Py.getitem parts 0;
    n ← int p0;
    p1 ← Py.getitem parts 1;
    Some (FormsState (poetry_dict st) (poetry_name st)
            (count st ++ [n]) (rhyme st ++ [p1])).

Definition read_poetry_form_descriptions (int : string → option Z)
  (poetry_forms_file : list string)
  : option (gmap string (list Z * list string)) :=
  st ← Py.for_ poetry_forms_file (forms_step int)
         (FormsState ∅ "" [] []);
  if bool_decide (poetry_name st ≠ "") then
    Some (<[poetry_name st := (count st, rhyme st)]> (poetry_dict st))
  else Some (poetry_dict st).

(** The small files of the docstrings of [poetry_reader.py]. *)
Definition pronunciation_small : list string :=
  [";;; A comment line" +:+ Py.str [ascii_of_nat 10];
   "CAMPBELL  K AE1 M B AH0 L" +:+ Py.str [ascii_of_nat 10];
   "GRIES  G R AY1 Z" +:+ Py.str [ascii_of_nat 10];
   "SMITH  S M IH1 TH" +:+ Py.str [ascii_of_nat 10]].

Definition poetry_forms_small : list string :=
  (λ l, l +:+ Py.str [ascii_of_nat 10]) <$>
  ["Haiku"; "5 *"; "7 *"; "5 *"; "";
   "Limerick"; "8 A"; "8 A"; "5 B"; "5 B"; "8 A"].

(** ** Predicates used in the statements *)

(** [poem_lines[i].split()[-1]], the word that [all_lines_rhyme] reads
    at index [i]. *)
Definition last_word (poem_lines : POEM) (i : Z) : option string :=
  line ← Py.getitem poem_lines i;
  Py.getitem (Py.split line) (-1).

(** The loop of [get_last_syllable], before its result is unpacked. *)
Definition last_syllable_loop (word_phonemes : PHONEMES)
  : option (Py.flow PHONEMES unit) :=
  Py.for_ret (Py.range_down (length word_phonemes))
    (λ (_ : unit) i,
       p ← Py.getitem word_phonemes i;
       v ← is_vowel_phoneme p;
       if v : bool then Some (Py.Return (Py.slice_from word_phonemes i))
       else Some (Py.Continue ()))
    ().

(** The two loops of [all_lines_rhyme]. *)
Definition collect_last_syllables (poem_lines : POEM)
  (word_to_phonemes : PRONUNCIATION_DICT) (lines_to_check : list Z)
  (last : list PHONEMES) : option (Py.flow bool (list PHONEMES)) :=
  Py.for_ret lines_to_check
    (λ last i,
       line ← Py.getitem poem_lines i;
       w ← Py.getitem (Py.split line) (-1);
       let ending_word := transform_string w in
       match word_to_phonemes !! ending_word with
       | None => Some (Py.Return false)
       | Some phonemes =>
           syll ← get_last_syllable phonemes;
           Some (Py.Continue (last ++ [syll]))
       end)
    last.

Definition compare_to_first (last js : list PHONEMES)
  : option (Py.flow bool unit) :=
  Py.for_ret js
    (λ (_ : unit) j,
       first ← Py.getitem last 0;
       if bool_decide (j ≠ first) then Some (Py.Return false)
       else Some (Py.Continue ()))
    ().

(** The line at index [i] ends in a known word whose last syllable is
    [k]; it ends in a word that is not in the dictionary. *)
Definition known_kernel (poem_lines : POEM)
  (word_to_phonemes : PRONUNCIATION_DICT) (i : Z) (k : PHONEMES) : Prop :=
  ∃ w ph, last_word poem_lines i = Some w ∧
          word_to_phonemes !! transform_string w = Some ph ∧
          get_last_syllable ph = Some k.

Definition unknown_word (poem_lines : POEM)
  (word_to_phonemes : PRONUNCIATION_DICT) (i : Z) : Prop :=
  ∃ w, last_word poem_lines i = Some w ∧
       word_to_phonemes !! transform_string w = None.

(** The last words of the lines at the given indices rhyme pairwise. *)
Definition rhyme_pairwise (poem_lines : POEM)
  (word_to_phonemes : PRONUNCIATION_DICT) (lines_to_check : list Z) : Prop :=
  ∀ i j w w',
    i ∈ lines_to_check → j ∈ lines_to_check →
    last_word poem_lines i = Some w → last_word poem_lines j = Some w' →
    words_rhyme w w' word_to_phonemes = Some true.

(** The lines that [check_syllable_counts] reports: a required count
    other than 0 that [get_syllable_count] does not return. *)
Definition miscounted (word_to_phonemes : PRONUNCIATION_DICT)
  (line_req : POEM_LINE * Z) : Prop :=
  line_req.2 ≠ 0 ∧
  get_syllable_count line_req.1 word_to_phonemes ≠ Some line_req.2.

(** The group [js] of a label other than ['*'] does not rhyme, and
    [inner] holds its lines. *)
Definition failing_group (poem_lines : POEM)
  (word_to_phonemes : PRONUNCIATION_DICT)
  (groups : list (string * list Z)) (inner : list POEM_LINE) : Prop :=
  ∃ label js,
    (label, js) ∈ groups ∧ label ≠ "*" ∧
    mapM (Py.getitem poem_lines) js = Some inner ∧
    all_lines_rhyme poem_lines js word_to_phonemes = Some false.

(** The first index of every group, in the order of the keys; and
    what [get_rhyme_label_to_lines] keeps about them after [n] labels. *)
Definition first_indices (m : Py.odict string (list Z)) : list (option Z) :=
  (λ item, head item.2) <$> m.

Definition order_inv (n : nat) (m : Py.odict string (list Z)) : Prop :=
  ∃ firsts : list Z,
    first_indices m = Some <$> firsts ∧
    StronglySorted Z.lt firsts ∧
    ∀ i, i ∈ firsts → i < Z.of_nat n.

(** What the loop of [read_poetry_form_descriptions] keeps: the stored
    descriptions, and the one being read, pair as many counts as
    labels. *)
Definition forms_inv (st : forms_state) : Prop :=
  map_Forall
    (λ (name : string) (description : list Z * list string),
       name ≠ "" ∧ length description.1 = length description.2)
    (poetry_dict st) ∧
  length (count st) = length (rhyme st).

(** A phoneme that [is_vowel_phoneme] accepts, or rejects. *)
Definition vowel (p : string) : Prop := is_vowel_phoneme p = Some true.
Definition consonant (p : string) : Prop := is_vowel_phoneme p = Some false.


(** A string that [lstrip] leaves alone: empty, or starting with a
    character outside the set [cs]. *)
Definition lstripped (cs s : list ascii) : Prop :=
  match s with [] => True | c :: _ => c ∉ cs end.

(** The invariant of the data model on phonemes: none is the empty
    string. *)
Definition phonemes_nonempty (d : PRONUNCIATION_DICT) : Prop :=
  map_Forall (λ _ ph, Forall (λ p : string, p ≠ "") ph) d.

(** What [get_rhyme_label_to_lines] maintains: the keys are distinct,
    and the list under a label is increasing and holds the positions
    of that label in the scheme read so far. *)
Definition groups_inv (rs : list string) (m : Py.odict string (list Z))
  : Prop :=
  NoDup m.*1 ∧
  ∀ l js, Py.get m l = Some js →
    StronglySorted Z.lt js ∧
    ∀ i, i ∈ js ↔ ∃ k : nat, i = Z.of_nat k ∧ rs !! k = Some l.

Definition labels_inv (rs : list string) (m : Py.odict string (list Z))
  : Prop :=
  groups_inv rs m ∧ ∀ l, l ∈ m.*1 ↔ l ∈ rs.

(** * Properties *)

(** ** The docstring examples, run on the embedding *)

Example transform_string_doc1 : transform_string "Birthday!!!" = "BIRTHDAY".
Proof. reflexivity. Qed.

Example transform_string_doc3 :
  transform_string "To be? Or not to be?" = "TO BE? OR NOT TO BE".
Proof. reflexivity. Qed.

Example split_doc :
  Py.split "  The  mouse in my house. " = ["The"; "mouse"; "in"; "my"; "house."].
Proof. reflexivity. Qed.

(** ** Strings and their characters *)

Section Strings.

Lemma chars_str cs : Py.chars (Py.str cs) = cs.
Proof. apply list_ascii_of_string_of_list_ascii. Qed.

Lemma str_chars s : Py.str (Py.chars s) = s.
Proof. apply string_of_list_ascii_of_string. Qed.

Lemma upper_char_idem c : Py.upper_char (Py.upper_char c) = Py.upper_char c.
Proof. destruct c as [[] [] [] [] [] [] [] []]; reflexivity. Qed.

Lemma upper_fixed cs :
  Forall (λ c, Py.upper_char c = c) cs → Py.upper_char <$> cs = cs.
Proof. induction 1 as [|c cs Hc _ IH]; csimpl; congruence. Qed.

Lemma upper_chars_fixed cs :
  Forall (λ c, Py.upper_char c = c) (Py.upper_char <$> cs).
Proof. induction cs; csimpl; constructor; auto using upper_char_idem. Qed.

Variable cs : list ascii.

Lemma lstrip_lstripped s : lstripped cs (Py.lstrip_chars cs s).
Proof.
  induction s as [|c s IH]; simpl; [done|].
  case_bool_decide; [done|]. by simpl.
Qed.

Lemma lstrip_fixed s : lstripped cs s → Py.lstrip_chars cs s = s.
Proof.
  destruct s as [|c s]; simpl; [done|]. intros Hc.
  by rewrite bool_decide_eq_false_2.
Qed.

Lemma lstrip_snoc s c :
  c ∉ cs → Py.lstrip_chars cs (s ++ [c]) = Py.lstrip_chars cs s ++ [c].
Proof.
  intros Hc. induction s as [|a s IH]; simpl.
  - by rewrite bool_decide_eq_false_2.
  - case_bool_decide; done.
Qed.

Lemma rstrip_lstripped s :
  lstripped cs s → lstripped cs (Py.rstrip_chars cs s).
Proof.
  destruct s as [|c s]; [done|]. simpl. intros Hc.
  unfold Py.rstrip_chars. rewrite reverse_cons, lstrip_snoc by done.
  by rewrite reverse_snoc.
Qed.

Lemma rstrip_idem s :
  Py.rstrip_chars cs (Py.rstrip_chars cs s) = Py.rstrip_chars cs s.
Proof.
  unfold Py.rstrip_chars. rewrite reverse_involutive.
  by rewrite (lstrip_fixed _ (lstrip_lstripped _)).
Qed.

Lemma strip_chars_idem s :
  let strip s := Py.rstrip_chars cs (Py.lstrip_chars cs s) in
  strip (strip s) = strip s.
Proof.
  simpl. rewrite (lstrip_fixed (Py.rstrip_chars _ _)).
  - apply rstrip_idem.
  - apply rstrip_lstripped, lstrip_lstripped.
Qed.

Lemma lstrip_Forall (P : ascii → Prop) s :
  Forall P s → Forall P (Py.lstrip_chars cs s).
Proof.
  induction 1 as [|c s Hc Hs IH]; simpl; [done|].
  case_bool_decide; [done|]. by constructor.
Qed.

Lemma rstrip_Forall (P : ascii → Prop) s :
  Forall P s → Forall P (Py.rstrip_chars cs s).
Proof.
  intros Hs. unfold Py.rstrip_chars.
  by apply Forall_reverse, lstrip_Forall, Forall_reverse.
Qed.

End Strings.

Lemma strip_idem s cs : Py.strip (Py.strip s cs) cs = Py.strip s cs.
Proof.
  unfold Py.strip. rewrite chars_str. f_equal. apply strip_chars_idem.
Qed.

Lemma upper_strip_upper s cs :
  Py.upper (Py.strip (Py.upper s) cs) = Py.strip (Py.upper s) cs.
Proof.
  unfold Py.upper, Py.strip. rewrite !chars_str. f_equal.
  apply upper_fixed, rstrip_Forall, lstrip_Forall, upper_chars_fixed.
Qed.

(** C7. Normalisation is idempotent: for every string [s],
    [transform_string (transform_string s) = transform_string s]. *)
Theorem transform_string_idempotent (s : string) :
  transform_string (transform_string s) = transform_string s.
Proof.
  unfold transform_string. rewrite upper_strip_upper. apply strip_idem.
Qed.

(** ** Indexing and loops *)

Lemma getitem_of_nat {A} (xs : list A) (k : nat) :
  Py.getitem xs (Z.of_nat k) = xs !! k.
Proof.
  unfold Py.getitem. rewrite bool_decide_eq_true_2 by lia.
  by rewrite Nat2Z.id.
Qed.

Lemma getitem_last {A} (xs : list A) : Py.getitem xs (-1) = last xs.
Proof.
  unfold Py.getitem. rewrite bool_decide_eq_false_2 by lia.
  destruct xs as [|x xs _] using rev_ind.
  - by rewrite bool_decide_eq_false_2 by (simpl; lia).
  - rewrite last_snoc, length_app. simpl.
    rewrite bool_decide_eq_true_2 by lia.
    replace (Z.to_nat (-1 + Z.of_nat (length xs + 1))) with (length xs) by lia.
    by rewrite lookup_app_r, Nat.sub_diag.
Qed.

Lemma getitem_elem_of {A} (xs : list A) i x :
  Py.getitem xs i = Some x → x ∈ xs.
Proof.
  unfold Py.getitem. repeat case_bool_decide; try done;
    intros ?%list_elem_of_lookup_2; done.
Qed.

Lemma elem_of_range n i :
  i ∈ Py.range n ↔ ∃ k : nat, i = Z.of_nat k ∧ (k < n)%nat.
Proof.
  unfold Py.range. rewrite list_elem_of_fmap. setoid_rewrite elem_of_seq.
  split; intros (k & ? & ?); exists k; split; auto; lia.
Qed.

Lemma getitem_range {A} (xs : list A) i :
  i ∈ Py.range (length xs) → is_Some (Py.getitem xs i).
Proof.
  intros (k & -> & Hk)%elem_of_range. rewrite getitem_of_nat.
  by apply lookup_lt_is_Some.
Qed.

Lemma range_snoc n : Py.range (S n) = Py.range n ++ [Z.of_nat n].
Proof. unfold Py.range. by rewrite seq_S, fmap_app. Qed.

Lemma for_app {S A} (xs ys : list A) (body : S → A → option S) s :
  Py.for_ (xs ++ ys) body s = s' ← Py.for_ xs body s; Py.for_ ys body s'.
Proof.
  revert s. induction xs as [|x xs IH]; intros s; simpl; [done|].
  destruct (body s x); simpl; auto.
Qed.

Lemma for_ext {S A} (xs : list A) (body body' : S → A → option S) s :
  (∀ s x, x ∈ xs → body s x = body' s x) →
  Py.for_ xs body s = Py.for_ xs body' s.
Proof.
  revert s. induction xs as [|x xs IH]; intros s Hb; simpl; [done|].
  rewrite Hb by left. destruct (body' s x); simpl; [|done].
  apply IH. intros. apply Hb. by right.
Qed.

Lemma for_ret_is_Some {R S A} (xs : list A)
  (body : S → A → option (Py.flow R S)) s :
  (∀ s x, x ∈ xs → is_Some (body s x)) → is_Some (Py.for_ret xs body s).
Proof.
  revert s. induction xs as [|x xs IH]; intros s Hb; simpl; [done|].
  destruct (Hb s x) as [[r|s'] ->]; [left|simpl; done|simpl].
  apply IH. intros. apply Hb. by right.
Qed.

Lemma for_ret_continue {R A} (xs : list A)
  (body : unit → A → option (Py.flow R unit)) :
  (∀ x, x ∈ xs → body () x = Some (Py.Continue ())) →
  Py.for_ret xs body () = Some (Py.Continue ()).
Proof.
  induction xs as [|x xs IH]; intros Hb; simpl; [done|].
  rewrite Hb by left. simpl. apply IH. intros. apply Hb. by right.
Qed.

(** ** Phonemes and last syllables *)

Lemma is_vowel_phoneme_is_Some p : p ≠ "" → is_Some (is_vowel_phoneme p).
Proof.
  intros Hp. unfold is_vowel_phoneme. rewrite getitem_last.
  destruct (last (Py.chars p)) as [c|] eqn:Hl; [by eexists|].
  apply last_None in Hl. destruct p; [done|discriminate].
Qed.

Lemma is_vowel_phoneme_empty : is_vowel_phoneme "" = None.
Proof. reflexivity. Qed.

(** A sequence without vowel phonemes has an empty last syllable. *)
Lemma get_last_syllable_no_vowel (ph : PHONEMES) :
  Forall (λ p, is_vowel_phoneme p = Some false) ph →
  get_last_syllable ph = Some [].
Proof.
  intros Hph. unfold get_last_syllable. rewrite for_ret_continue; [done|].
  intros i Hi. unfold Py.range_down in Hi. rewrite elem_of_reverse in Hi.
  destruct (getitem_range ph i Hi) as [p Hp]. rewrite Hp. simpl.
  rewrite Forall_forall in Hph.
  by rewrite (Hph p (getitem_elem_of _ _ _ Hp)).
Qed.

(** [get_last_syllable] returns on every sequence of non-empty phonemes. *)
Lemma get_last_syllable_is_Some (ph : PHONEMES) :
  Forall (λ p, p ≠ "") ph → is_Some (get_last_syllable ph).
Proof.
  intros Hph. unfold get_last_syllable.
  destruct (for_ret_is_Some (R := list string)
              (Py.range_down (length ph))
              (λ (_ : unit) i,
                 p ← Py.getitem ph i;
                 v ← is_vowel_phoneme p;
                 if v : bool then Some (Py.Return (Py.slice_from ph i))
                 else Some (Py.Continue ())) ()) as [r ->].
  - intros _ i Hi. unfold Py.range_down in Hi. rewrite elem_of_reverse in Hi.
    destruct (getitem_range ph i Hi) as [p Hp]. rewrite Hp. simpl.
    rewrite Forall_forall in Hph.
    destruct (is_vowel_phoneme_is_Some p) as [v ->].
    + apply Hph. by eapply getitem_elem_of.
    + simpl. by destruct v.
  - simpl. by destruct r.
Qed.

Example get_last_syllable_doc1 :
  get_last_syllable ["AE1"; "B"; "S"; "IH0"; "N"; "TH"]
  = Some ["IH0"; "N"; "TH"].
Proof. reflexivity. Qed.

Example get_last_syllable_doc2 : get_last_syllable ["IH0"; "N"] = Some ["IH0"; "N"].
Proof. reflexivity. Qed.

Example get_last_syllable_doc3 : get_last_syllable ["B"; "S"] = Some [].
Proof. reflexivity. Qed.

(** ** [words_rhyme] *)

Example words_rhyme_doc1 : words_rhyme "thine" "devine" thine_dict = Some true.
Proof. reflexivity. Qed.

Example words_rhyme_doc2 : words_rhyme "thine" "heard." thine_dict = Some false.
Proof. reflexivity. Qed.

(** C5. Two words that are both in the dictionary (after normalisation)
    and whose phoneme sequences contain no vowel phoneme: the last
    syllable of each is the empty sequence, and [words_rhyme] returns
    [True]. *)
Theorem words_rhyme_no_vowel (word1 word2 : string)
  (word_to_phonemes : PRONUNCIATION_DICT) (phoneme1 phoneme2 : PHONEMES) :
  word_to_phonemes !! transform_string word1 = Some phoneme1 →
  word_to_phonemes !! transform_string word2 = Some phoneme2 →
  Forall (λ p, is_vowel_phoneme p = Some false) phoneme1 →
  Forall (λ p, is_vowel_phoneme p = Some false) phoneme2 →
  get_last_syllable phoneme1 = Some [] ∧
  get_last_syllable phoneme2 = Some [] ∧
  words_rhyme word1 word2 word_to_phonemes = Some true.
Proof.
  intros H1 H2 Hv1 Hv2.
  pose proof (get_last_syllable_no_vowel _ Hv1) as E1.
  pose proof (get_last_syllable_no_vowel _ Hv2) as E2.
  repeat split; try done.
  unfold words_rhyme. by rewrite H1, H2, E1, E2.
Qed.

Lemma words_rhyme_no_vowel_witness :
  get_last_syllable ["HH"; "M"] = Some [] ∧
  get_last_syllable ["SH"] = Some [] ∧
  words_rhyme "hmm..." "Shh!" consonant_dict = Some true.
Proof.
  apply (words_rhyme_no_vowel "hmm..." "Shh!" consonant_dict
           ["HH"; "M"] ["SH"]).
  - reflexivity.
  - reflexivity.
  - repeat constructor.
  - repeat constructor.
Defined.

(** C8. [words_rhyme] is symmetric in its two words. *)
Theorem words_rhyme_symmetric (a b : string) (d : PRONUNCIATION_DICT) :
  words_rhyme a b d = words_rhyme b a d.
Proof.
  unfold words_rhyme.
  destruct (d !! transform_string a) as [pa|], (d !! transform_string b) as [pb|];
    try done.
  destruct (get_last_syllable pa) as [sa|], (get_last_syllable pb) as [sb|];
    simpl; try done.
  f_equal. apply bool_decide_ext. split; congruence.
Qed.

(** ** [str.split()] and the last word of a line *)

Lemma split_chars_nil cur s :
  Py.split_chars cur s = [] ↔
  cur = [] ∧ Forall (λ c, Py.is_space c = true) s.
Proof.
  revert cur. induction s as [|c s IH]; intros cur; simpl.
  - destruct cur; split; try done. by intros [? _].
  - destruct (Py.is_space c) eqn:Hc.
    + destruct cur as [|a cur].
      * rewrite IH. split; intros [? ?]; split; auto.
        by eapply Forall_cons_1.
      * split; [done|by intros [? _]].
    + rewrite IH. split; [by intros [? _]|].
      intros [_ Hs]. apply Forall_cons_1 in Hs as [? _]. congruence.
Qed.

Lemma split_nil line :
  Py.split line = [] ↔ Forall (λ c, Py.is_space c = true) (Py.chars line).
Proof.
  unfold Py.split. split.
  - intros H%fmap_nil_inv. by apply split_chars_nil in H as [_ ?].
  - intros H. by rewrite (proj2 (split_chars_nil [] _) (conj eq_refl H)).
Qed.

Lemma not_all_space cs :
  ¬ Forall (λ c, Py.is_space c = true) cs ↔
  Exists (λ c, Py.is_space c = false) cs.
Proof.
  split.
  - intros H. induction cs as [|c cs IH]; [by destruct H|].
    destruct (Py.is_space c) eqn:Hc; [|by left].
    right. apply IH. intros Hcs. apply H. by constructor.
  - intros HE HF. induction HE as [c cs Hc|c cs _ IH];
      apply Forall_cons_1 in HF as [? ?]; [congruence|auto].
Qed.

(** [line.split()[-1]] is in bounds exactly when the line has a
    character that is not whitespace. *)
Lemma last_word_is_Some line :
  is_Some (Py.getitem (Py.split line) (-1)) ↔
  Exists (λ c, Py.is_space c = false) (Py.chars line).
Proof. by rewrite getitem_last, last_is_Some, split_nil, not_all_space. Qed.

(** ** [all_lines_rhyme] *)

Example all_lines_rhyme_doc1 : all_lines_rhyme mouse_poem [0; 1] mouse_dict = Some true.
Proof. reflexivity. Qed.

Example all_lines_rhyme_doc2 :
  all_lines_rhyme mouse_poem [0; 1; 2] mouse_dict = Some false.
Proof. reflexivity. Qed.

Example all_lines_rhyme_doc3 : all_lines_rhyme mouse_poem [2] mouse_dict = Some true.
Proof. reflexivity. Qed.

Lemma bind_is_Some_intro {A B} (mx : option A) (f : A → option B) :
  is_Some mx → (∀ x, mx = Some x → is_Some (f x)) → is_Some (mx ≫= f).
Proof. intros [x ->] Hf. simpl. by apply Hf. Qed.

(** A singleton check whose last word is known compares one syllable
    with itself. *)
Lemma singleton_known_word_rhymes poem_lines i word_to_phonemes
  line w phonemes :
  Py.getitem poem_lines i = Some line →
  Py.getitem (Py.split line) (-1) = Some w →
  word_to_phonemes !! transform_string w = Some phonemes →
  Forall (λ p, p ≠ "") phonemes →
  all_lines_rhyme poem_lines [i] word_to_phonemes = Some true.
Proof.
  intros Hline Hw Hd Hph.
  destruct (get_last_syllable_is_Some _ Hph) as [syll Hs].
  unfold all_lines_rhyme. simpl. rewrite Hline. simpl. rewrite Hw. simpl.
  rewrite Hd, Hs. simpl.
  by rewrite bool_decide_eq_false_2 by (intros Hne; by apply Hne).
Qed.

(** A singleton check whose last word is unknown returns [False]. *)
Lemma singleton_unknown_word_fails poem_lines i word_to_phonemes line w :
  Py.getitem poem_lines i = Some line →
  Py.getitem (Py.split line) (-1) = Some w →
  word_to_phonemes !! transform_string w = None →
  all_lines_rhyme poem_lines [i] word_to_phonemes = Some false.
Proof.
  intros Hline Hw Hd.
  unfold all_lines_rhyme. simpl. rewrite Hline. simpl. rewrite Hw. simpl.
  by rewrite Hd.
Qed.

(** C3, as the code has it. For a singleton index list [[i]] whose
    line exists and ends in a word that, once normalised, is in the
    dictionary with non-empty phonemes, [all_lines_rhyme] returns
    [True]. *)
Theorem all_lines_rhyme_singleton (poem_lines : POEM) (i : Z)
  (word_to_phonemes : PRONUNCIATION_DICT) (line w : string)
  (phonemes : PHONEMES) :
  Py.getitem poem_lines i = Some line →
  Py.getitem (Py.split line) (-1) = Some w →
  word_to_phonemes !! transform_string w = Some phonemes →
  Forall (λ p, p ≠ "") phonemes →
  all_lines_rhyme poem_lines [i] word_to_phonemes = Some true.
Proof. apply singleton_known_word_rhymes. Qed.

Lemma all_lines_rhyme_singleton_witness :
  all_lines_rhyme mouse_poem [2] mouse_dict = Some true.
Proof.
  apply (all_lines_rhyme_singleton mouse_poem 2 mouse_dict
           "electric." "electric."
           ["IH0"; "L"; "EH1"; "K"; "T"; "R"; "IH0"; "K"]).
  - reflexivity.
  - reflexivity.
  - reflexivity.
  - repeat constructor; discriminate.
Defined.

(** C3 as stated fails: the last word of line 2 is not in the
    dictionary, and the singleton check returns [False]. *)
Lemma all_lines_rhyme_singleton_counterexample :
  thine_dict !! transform_string "electric." = None ∧
  all_lines_rhyme mouse_poem [2] thine_dict = Some false.
Proof. split; reflexivity. Qed.

(** C10. When every referenced line exists and has a character that is
    not whitespace (and the phonemes of the dictionary are non-empty),
    [line.split()[-1]] is in bounds for each of them and the call
    returns. A referenced line made of whitespace only, empty or not,
    makes the call raise at that line. *)
Theorem all_lines_rhyme_last_word_in_bounds (poem_lines : POEM)
  (lines_to_check : list Z) (word_to_phonemes : PRONUNCIATION_DICT) :
  phonemes_nonempty word_to_phonemes →
  Forall (λ i, ∃ line, Py.getitem poem_lines i = Some line ∧
                       Exists (λ c, Py.is_space c = false) (Py.chars line))
         lines_to_check →
  Forall (λ i, ∃ line w, Py.getitem poem_lines i = Some line ∧
                         Py.getitem (Py.split line) (-1) = Some w)
         lines_to_check ∧
  is_Some (all_lines_rhyme poem_lines lines_to_check word_to_phonemes) ∧
  (∀ (poem : POEM) i rest blank,
     Py.getitem poem i = Some blank →
     Forall (λ c, Py.is_space c = true) (Py.chars blank) →
     Py.split blank = [] ∧
     all_lines_rhyme poem (i :: rest) word_to_phonemes = None).
Proof.
  intros Hd Hlines. rewrite Forall_forall in Hlines. split; [|split].
  - apply Forall_forall. intros i Hi.
    destruct (Hlines i Hi) as (line & Hline & Hc).
    apply last_word_is_Some in Hc as [w Hw]. eauto.
  - unfold all_lines_rhyme. apply bind_is_Some_intro.
    + apply for_ret_is_Some. intros last i Hi.
      destruct (Hlines i Hi) as (line & Hline & Hc).
      apply last_word_is_Some in Hc as [w Hw].
      rewrite Hline. simpl. rewrite Hw. simpl.
      destruct (word_to_phonemes !! transform_string w) as [ph|] eqn:Hph;
        [|done].
      destruct (get_last_syllable_is_Some ph) as [syll ->]; [|done].
      by apply (Hd _ _ Hph).
    + intros [b|last] _; [done|]. apply bind_is_Some_intro.
      * apply for_ret_is_Some. intros _ j Hj.
        destruct last as [|first last]; [by apply elem_of_nil in Hj|].
        change (Py.getitem (first :: last) 0) with (Some first). simpl.
        by case_bool_decide.
      * by intros [b|[]] _.
  - intros poem i rest blank Hblank Hws. apply split_nil in Hws.
    split; [done|]. unfold all_lines_rhyme. simpl.
    rewrite Hblank. simpl. by rewrite Hws.
Qed.

Lemma all_lines_rhyme_last_word_in_bounds_witness :
  is_Some (all_lines_rhyme mouse_poem [0; 1; 2] mouse_dict).
Proof.
  apply (all_lines_rhyme_last_word_in_bounds mouse_poem [0; 1; 2] mouse_dict).
  - apply map_Forall_to_list. vm_compute.
    repeat (constructor; simpl; try discriminate).
  - repeat constructor.
    + exists "The mouse". split; [reflexivity|]. by left.
    + exists "in my house". split; [reflexivity|]. by left.
    + exists "electric.". split; [reflexivity|]. by left.
Defined.

(** A line that is not empty and yet has no word. *)
Example all_lines_rhyme_blank_line :
  all_lines_rhyme ["The mouse"; " "] [1] mouse_dict = None.
Proof. reflexivity. Qed.

(** The same with a line made of a no-break space, or of a next-line
    character. *)
Example all_lines_rhyme_nbsp_line :
  all_lines_rhyme [Py.str [ascii_of_nat 160]] [0] mouse_dict = None ∧
  all_lines_rhyme [Py.str [ascii_of_nat 133]] [0] mouse_dict = None.
Proof. split; reflexivity. Qed.

(** ** Insertion-ordered dictionaries *)

Section odict.
Context `{EqDecision K} {V : Type}.
Implicit Types (d : Py.odict K V) (k : K) (v : V).

Lemma odict_get_None d k : Py.get d k = None ↔ k ∉ d.*1.
Proof.
  induction d as [|[k' v'] d IH]; csimpl.
  - split; [intros _; apply not_elem_of_nil|done].
  - rewrite not_elem_of_cons. destruct (decide (k = k')) as [->|Hne].
    + split; [done|]. by intros [? _].
    + rewrite IH. split; [done|]. by intros [_ ?].
Qed.

Lemma odict_get_elem_of d k v : Py.get d k = Some v → (k, v) ∈ d.
Proof.
  induction d as [|[k' v'] d IH]; simpl; [done|].
  destruct (decide (k = k')) as [->|].
  - intros [= ->]. left.
  - right. auto.
Qed.

Lemma odict_elem_of_get d k v : NoDup d.*1 → (k, v) ∈ d → Py.get d k = Some v.
Proof.
  induction d as [|[k' v'] d IH]; simpl.
  - by intros _ ?%elem_of_nil.
  - intros [Hk Hd]%NoDup_cons [[= -> ->]|Hin]%elem_of_cons.
    + by rewrite decide_True.
    + rewrite decide_False; [auto|]. intros ->. apply Hk.
      by apply (list_elem_of_fmap_2 fst) in Hin.
Qed.

Lemma odict_contains d k : Py.contains d k = true ↔ k ∈ d.*1.
Proof. unfold Py.contains. apply bool_decide_eq_true. Qed.

Lemma odict_keys_set d k v :
  (Py.set d k v).*1 = if decide (k ∈ d.*1) then d.*1 else d.*1 ++ [k].
Proof.
  induction d as [|[k' v'] d IH]; csimpl; [done|].
  destruct (decide (k = k')) as [->|Hne]; csimpl.
  - rewrite decide_True; [done|left].
  - rewrite IH. destruct (decide (k ∈ d.*1)).
    + rewrite decide_True; [done|by right].
    + rewrite decide_False; [done|]. rewrite not_elem_of_cons. done.
Qed.

Lemma odict_get_set d k v k' :
  Py.get (Py.set d k v) k' = if decide (k' = k) then Some v else Py.get d k'.
Proof.
  induction d as [|[k0 v0] d IH]; simpl.
  - by destruct (decide (k' = k)).
  - destruct (decide (k = k0)) as [->|Hne]; simpl.
    + by destruct (decide (k' = k0)).
    + rewrite IH. destruct (decide (k' = k0)) as [->|]; [|done].
      by rewrite decide_False.
Qed.

End odict.

(** ** [get_rhyme_label_to_lines] *)

Example get_rhyme_label_to_lines_doc1 :
  get_rhyme_label_to_lines ["A"; "A"; "B"; "B"; "A"]
  = Some [("A", [0; 1; 4]); ("B", [2; 3])].
Proof. reflexivity. Qed.

Example get_rhyme_label_to_lines_doc2 :
  get_rhyme_label_to_lines ["*"; "*"; "*"; "*"; "*"]
  = Some [("*", [0; 1; 2; 3; 4])].
Proof. reflexivity. Qed.

(** Registering a label that is not a key yet keeps the groups. *)
Lemma groups_inv_fresh rs m x :
  labels_inv rs m → x ∉ m.*1 → groups_inv rs (Py.set m x []).
Proof.
  intros [[Hnd Hg] Hk] Hx. split.
  - rewrite odict_keys_set, decide_False by done.
    apply NoDup_app. split_and!; [done| |apply NoDup_singleton].
    intros l Hl ->%list_elem_of_singleton. done.
  - intros l js. rewrite odict_get_set. destruct (decide (l = x)) as [->|].
    + intros [= <-]. split; [constructor|]. intros i. split.
      * by intros ?%elem_of_nil.
      * intros (k & _ & Hlk). destruct Hx. apply Hk.
        by eapply list_elem_of_lookup_2.
    + apply Hg.
Qed.

Lemma position_snoc (rs : list string) x l (i : Z) :
  (∃ k : nat, i = Z.of_nat k ∧ (rs ++ [x]) !! k = Some l) ↔
  (∃ k : nat, i = Z.of_nat k ∧ rs !! k = Some l) ∨
  (i = Z.of_nat (length rs) ∧ l = x).
Proof.
  split.
  - intros (k & -> & [[_ Hk]|[-> ->]]%lookup_snoc_Some); eauto.
  - intros [(k & -> & Hk)|[-> ->]].
    + exists k. split; [done|]. apply lookup_snoc_Some. left.
      split; [|done]. by eapply lookup_lt_Some.
    + exists (length rs). split; [done|]. apply lookup_snoc_Some. by right.
Qed.

(** Appending the next position to the list of its label. *)
Lemma groups_inv_append rs m x js :
  groups_inv rs m → Py.get m x = Some js →
  groups_inv (rs ++ [x]) (Py.set m x (js ++ [Z.of_nat (length rs)])).
Proof.
  intros [Hnd Hg] Hx. split.
  - rewrite odict_keys_set, decide_True; [done|].
    apply dec_stable. rewrite <- odict_get_None. congruence.
  - intros l ks. rewrite odict_get_set.
    destruct (decide (l = x)) as [->|Hne].
    + intros [= <-]. destruct (Hg _ _ Hx) as [Hs Hm]. split.
      * apply StronglySorted_app_2; [|done|repeat constructor].
        intros i ? (k & -> & Hk%lookup_lt_Some)%Hm ->%list_elem_of_singleton.
        lia.
      * intros i. rewrite elem_of_app, list_elem_of_singleton, Hm.
        rewrite position_snoc. split; (intros [?|?]; [by left|right]); tauto.
    + intros Hl. destruct (Hg _ _ Hl) as [Hs Hm]. split; [done|].
      intros i. rewrite Hm, position_snoc.
      split; [auto|]. by intros [?|[_ ?]].
Qed.

Lemma label_step_inv rs x m :
  labels_inv rs m →
  ∃ m', label_step (rs ++ [x]) m (Z.of_nat (length rs)) = Some m' ∧
        labels_inv (rs ++ [x]) m'.
Proof.
  intros Hinv. pose proof Hinv as [Hg Hk]. unfold label_step.
  rewrite getitem_of_nat, lookup_app_r, Nat.sub_diag by lia. simpl.
  destruct (Py.contains m x) eqn:Hc; simpl.
  - apply odict_contains in Hc.
    destruct (Py.get m x) as [js|] eqn:Hx;
      [|by apply odict_get_None in Hx].
    simpl. eexists. split; [done|]. split.
    + by apply groups_inv_append.
    + intros l. rewrite odict_keys_set, decide_True by done.
      rewrite Hk, elem_of_app, list_elem_of_singleton.
      split; [auto|]. intros [?| ->]; [done|]. by apply Hk.
  - assert (x ∉ m.*1) as Hx.
    { intros ?%odict_contains. congruence. }
    rewrite odict_get_set, decide_True by done. simpl.
    eexists. split; [done|]. split.
    + apply (groups_inv_append rs (Py.set m x []) x []);
        [by apply groups_inv_fresh|].
      by rewrite odict_get_set, decide_True.
    + intros l. rewrite odict_keys_set, (odict_keys_set m).
      rewrite (decide_False (P := x ∈ m.*1)) by done.
      rewrite decide_True by (apply elem_of_app; right; left).
      by rewrite !elem_of_app, Hk.
Qed.

Lemma label_step_prefix rs x m i :
  i ∈ Py.range (length rs) → label_step (rs ++ [x]) m i = label_step rs m i.
Proof.
  intros (k & -> & Hk)%elem_of_range. unfold label_step.
  by rewrite !getitem_of_nat, lookup_app_l.
Qed.

Lemma get_rhyme_label_to_lines_inv rs :
  ∃ m, get_rhyme_label_to_lines rs = Some m ∧ labels_inv rs m.
Proof.
  induction rs as [|x rs IH] using rev_ind.
  - exists []. split; [done|]. repeat split; try done; constructor.
  - destruct IH as (m & Hm & Hinv). unfold get_rhyme_label_to_lines in *.
    rewrite length_app, Nat.add_1_r, range_snoc, for_app.
    rewrite (for_ext _ _ (label_step rs))
      by (intros; by apply label_step_prefix).
    rewrite Hm. simpl.
    destruct (label_step_inv rs x m Hinv) as (m' & -> & Hinv'). eauto.
Qed.

(** C9. For every rhyme scheme, [get_rhyme_label_to_lines] returns a
    mapping whose keys are distinct and are exactly the labels of the
    scheme; every index of the scheme is in the list of exactly one
    label; every list is strictly increasing and holds indices of the
    scheme only. *)
Theorem get_rhyme_label_to_lines_partition (rhyme_scheme : list string) :
  ∃ labels,
    get_rhyme_label_to_lines rhyme_scheme = Some labels ∧
    NoDup labels.*1 ∧
    (∀ label, label ∈ labels.*1 ↔ label ∈ rhyme_scheme) ∧
    (∀ i, 0 ≤ i < Z.of_nat (length rhyme_scheme) →
       ∃ label js, (label, js) ∈ labels ∧ i ∈ js ∧
         ∀ label' js', (label', js') ∈ labels → i ∈ js' →
           label' = label ∧ js' = js) ∧
    (∀ label js, (label, js) ∈ labels →
       StronglySorted Z.lt js ∧
       ∀ i, i ∈ js →
         0 ≤ i < Z.of_nat (length rhyme_scheme) ∧
         Py.getitem rhyme_scheme i = Some label).
Proof.
  destruct (get_rhyme_label_to_lines_inv rhyme_scheme)
    as (m & Hm & [[Hnd Hg] Hk]).
  exists m. split_and!; try done.
  - intros i Hi.
    destruct (lookup_lt_is_Some_2 rhyme_scheme (Z.to_nat i)) as [l Hl]; [lia|].
    assert (l ∈ m.*1) as Hin by (by eapply Hk, list_elem_of_lookup_2).
    destruct (Py.get m l) as [js|] eqn:Hjs;
      [|by apply odict_get_None in Hjs].
    exists l, js. destruct (Hg _ _ Hjs) as [_ Hmem]. split_and!.
    + by apply odict_get_elem_of.
    + apply Hmem. exists (Z.to_nat i). split; [lia|done].
    + intros l' js' Hin' Hi'. apply (odict_elem_of_get _ _ _ Hnd) in Hin'.
      destruct (Hg _ _ Hin') as [_ Hmem'].
      apply Hmem' in Hi' as (k & -> & Hk'). rewrite Nat2Z.id in Hl.
      assert (l' = l) as -> by congruence. split; congruence.
  - intros l js Hin. apply (odict_elem_of_get _ _ _ Hnd) in Hin.
    destruct (Hg _ _ Hin) as [Hs Hmem]. split; [done|].
    intros i (k & -> & Hk')%Hmem. rewrite getitem_of_nat. split; [|done].
    apply lookup_lt_Some in Hk'. lia.
Qed.

(** ** [check_rhyme_scheme] *)

Lemma for_id {S A} (xs : list A) (body : S → A → option S) s :
  (∀ s x, x ∈ xs → body s x = Some s) → Py.for_ xs body s = Some s.
Proof.
  induction xs as [|x xs IH]; intros Hb; simpl; [done|].
  rewrite Hb by left. simpl. apply IH. intros. apply Hb. by right.
Qed.

Lemma for_skip {S A} (xs ys : list A) x (body : S → A → option S) s :
  (∀ s, body s x = Some s) →
  Py.for_ (xs ++ x :: ys) body s = Py.for_ (xs ++ ys) body s.
Proof.
  intros Hx. rewrite !for_app. destruct (Py.for_ xs body s) as [s'|]; [|done].
  simpl. by rewrite Hx.
Qed.

Lemma for_delete {S A} (xs : list A) k x (body : S → A → option S) s :
  xs !! k = Some x → (∀ s, body s x = Some s) →
  Py.for_ xs body s = Py.for_ (delete k xs) body s.
Proof.
  intros Hk Hx. rewrite delete_take_drop.
  rewrite <- (take_drop_middle xs k x Hk) at 1. by apply for_skip.
Qed.

(** A group that does not rhyme is appended by both tests of the body. *)
Lemma check_group_failing poem_lines word_to_phonemes bad_lines label j line :
  label ≠ "*" →
  mapM (Py.getitem poem_lines) j = Some line →
  all_lines_rhyme poem_lines j word_to_phonemes = Some false →
  check_group poem_lines word_to_phonemes bad_lines (label, j)
  = Some (bad_lines ++ [line] ++ [line]).
Proof.
  intros Hl Hline Hr. unfold check_group.
  rewrite bool_decide_eq_true_2, Hline, Hr by done. simpl.
  by rewrite <- app_assoc.
Qed.

Lemma check_group_rhyming poem_lines word_to_phonemes bad_lines label j :
  is_Some (mapM (Py.getitem poem_lines) j) →
  all_lines_rhyme poem_lines j word_to_phonemes = Some true →
  check_group poem_lines word_to_phonemes bad_lines (label, j)
  = Some bad_lines.
Proof.
  intros [line Hline] Hr. unfold check_group.
  case_bool_decide; [|done]. by rewrite Hline, Hr.
Qed.

(** C2, evaluated on the code. On the poem, description and dictionary
    of the docstring of [check_rhyme_scheme], group [A] is the only one
    that fails, and the result holds its lines twice; the docstring
    expects them once. *)
Theorem check_rhyme_scheme_doc_appends_twice :
  check_rhyme_scheme example_poem ([5; 7; 5], ["A"; "B"; "A"]) example_dict
  = Some [["The first line leads off,"; "Then the poem ends."];
          ["The first line leads off,"; "Then the poem ends."]].
Proof. reflexivity. Qed.

(** C4, as the code has it. A group with exactly one line index whose
    line ends in a word that, once normalised, is in the dictionary
    (with non-empty phonemes) adds nothing to [bad_lines]: the result
    of [check_rhyme_scheme] is the result of the loop over the other
    groups. *)
Theorem check_rhyme_scheme_singleton_group (poem_lines : POEM)
  (description : POETRY_FORM_DESCRIPTION)
  (word_to_phonemes : PRONUNCIATION_DICT)
  (labels : Py.odict string (list Z)) (k : nat) (label : string) (i : Z)
  (line w : string) (phonemes : PHONEMES) :
  get_rhyme_label_to_lines description.2 = Some labels →
  labels !! k = Some (label, [i]) →
  Py.getitem poem_lines i = Some line →
  Py.getitem (Py.split line) (-1) = Some w →
  word_to_phonemes !! transform_string w = Some phonemes →
  Forall (λ p, p ≠ "") phonemes →
  (∀ bad_lines,
     check_group poem_lines word_to_phonemes bad_lines (label, [i])
     = Some bad_lines) ∧
  check_rhyme_scheme poem_lines description word_to_phonemes
  = Py.for_ (delete k labels) (check_group poem_lines word_to_phonemes) [].
Proof.
  intros Hlabels Hk Hline Hw Hd Hph.
  assert (∀ bad_lines,
    check_group poem_lines word_to_phonemes bad_lines (label, [i])
    = Some bad_lines) as Hgroup.
  { intros bad_lines. apply check_group_rhyming.
    - simpl. rewrite Hline. by eexists.
    - by eapply singleton_known_word_rhymes. }
  split; [done|]. unfold check_rhyme_scheme. rewrite Hlabels. simpl.
  by eapply for_delete.
Qed.

Lemma check_rhyme_scheme_singleton_group_witness :
  check_rhyme_scheme mouse_poem ([0; 0; 0], ["A"; "A"; "B"]) mouse_dict
  = Py.for_ [("A", [0; 1])] (check_group mouse_poem mouse_dict) [].
Proof.
  apply (check_rhyme_scheme_singleton_group
           mouse_poem ([0; 0; 0], ["A"; "A"; "B"]) mouse_dict
           [("A", [0; 1]); ("B", [2])] 1 "B" 2 "electric." "electric."
           ["IH0"; "L"; "EH1"; "K"; "T"; "R"; "IH0"; "K"]).
  - reflexivity.
  - reflexivity.
  - reflexivity.
  - reflexivity.
  - reflexivity.
  - repeat constructor; discriminate.
Defined.

(** C4 as stated fails: group [B] has the single index 2, the last
    word of line 2 is not in the dictionary, and the lines of the
    group are in the result. *)
Lemma check_rhyme_scheme_singleton_counterexample :
  get_rhyme_label_to_lines ["A"; "A"; "B"]
  = Some [("A", [0; 1]); ("B", [2])] ∧
  rhyming_dict !! transform_string "electric." = None ∧
  check_rhyme_scheme mouse_poem ([0; 0; 0], ["A"; "A"; "B"]) rhyming_dict
  = Some [["electric."]; ["electric."]].
Proof. repeat split; reflexivity. Qed.

(** ** [get_syllable_count] *)

(** The loop of [get_syllable_count] looks single characters up in the
    dictionary: without a one-character key nothing is counted. *)
Lemma get_syllable_count_no_char_key poem_line
  (word_to_phonemes : PRONUNCIATION_DICT) :
  (∀ c, word_to_phonemes !! Py.str [c] = None) →
  get_syllable_count poem_line word_to_phonemes = Some 0.
Proof.
  intros Hd. unfold get_syllable_count. apply for_id. intros count c _.
  rewrite Hd. by rewrite bool_decide_eq_false_2 by (by intros [? ?]).
Qed.

(** C1, evaluated on the code. On the line and dictionary of the
    docstring of [get_syllable_count] the code returns 0; the
    docstring expects 5. *)
Theorem get_syllable_count_doc_returns_zero :
  get_syllable_count "Then! the #poem ends." small_dict = Some 0.
Proof. reflexivity. Qed.

(** ** [check_syllable_counts] *)

Example check_syllable_counts_doc2 :
  check_syllable_counts ["The first line leads off,"] ([0], ["*"]) example_dict
  = Some [].
Proof. reflexivity. Qed.

Lemma check_line_lookup poem_lines syllable_counts word_to_phonemes
  invalid_lines i :
  check_line poem_lines syllable_counts word_to_phonemes invalid_lines i
  = line ← Py.getitem poem_lines i;
    req ← Py.getitem syllable_counts i;
    flag_line word_to_phonemes invalid_lines (line, req).
Proof. reflexivity. Qed.

(** With as many counts as lines, the loop over the indices is a loop
    over the lines paired with their counts. *)
Lemma check_lines_zip poem_lines syllable_counts word_to_phonemes invalid_lines :
  length poem_lines = length syllable_counts →
  Py.for_ (Py.range (length poem_lines))
    (check_line poem_lines syllable_counts word_to_phonemes) invalid_lines
  = Py.for_ (zip poem_lines syllable_counts) (flag_line word_to_phonemes)
      invalid_lines.
Proof.
  revert syllable_counts.
  induction poem_lines as [|line ls IH] using rev_ind;
    intros counts Hlen; [done|].
  destruct counts as [|req cs _] using rev_ind.
  { rewrite length_app in Hlen. simpl in Hlen. lia. }
  rewrite !length_app in Hlen. simpl in Hlen.
  assert (length ls = length cs) as Hlen' by lia.
  rewrite length_app, Nat.add_1_r, range_snoc, for_app.
  rewrite zip_with_app, for_app by done.
  rewrite (for_ext _ _ (check_line ls cs word_to_phonemes)).
  - rewrite IH by done.
    destruct (Py.for_ (zip ls cs) _ _) as [inv|]; [|done]. simpl.
    rewrite check_line_lookup, !getitem_of_nat.
    by rewrite !list_lookup_middle by done.
  - intros inv i (k & -> & Hk)%elem_of_range.
    rewrite !check_line_lookup, !getitem_of_nat.
    by rewrite !lookup_app_l by lia.
Qed.

(** C6. With as many required counts as lines: a line whose required
    count is 0 adds nothing to the result, which is the result for the
    poem and the counts without that line; and when every required
    count is 0 the result is the empty list. *)
Theorem check_syllable_counts_zero (poem_lines : POEM)
  (description : POETRY_FORM_DESCRIPTION)
  (word_to_phonemes : PRONUNCIATION_DICT) :
  length poem_lines = length description.1 →
  (∀ i : nat, description.1 !! i = Some 0 →
     check_syllable_counts poem_lines description word_to_phonemes
     = check_syllable_counts (delete i poem_lines)
         (delete i description.1, description.2) word_to_phonemes) ∧
  (Forall (λ req, req = 0) description.1 →
     check_syllable_counts poem_lines description word_to_phonemes = Some []).
Proof.
  destruct description as [counts scheme]. simpl. intros Hlen.
  unfold check_syllable_counts. simpl. split.
  - intros i Hi.
    destruct (lookup_lt_is_Some_2 poem_lines i) as [line Hline].
    { rewrite Hlen. by eapply lookup_lt_Some. }
    rewrite !check_lines_zip; [|by rewrite !length_delete, Hlen by eauto|done].
    rewrite !delete_take_drop, zip_with_app.
    + rewrite <- zip_with_take, <- zip_with_drop, <- delete_take_drop.
      apply (for_delete _ _ (line, 0)); [|done].
      by rewrite lookup_zip_with, Hline, Hi.
    + rewrite !length_take. lia.
  - intros Hzero. rewrite check_lines_zip by done.
    apply for_id. intros inv [line req] Hin.
    apply elem_of_zip_r in Hin. rewrite Forall_forall in Hzero.
    by rewrite (Hzero _ Hin).
Qed.

Lemma check_syllable_counts_zero_witness :
  check_syllable_counts ["The first line leads off,"] ([0], ["*"]) example_dict
  = Some [].
Proof.
  apply (check_syllable_counts_zero
           ["The first line leads off,"] ([0], ["*"]) example_dict).
  - reflexivity.
  - repeat constructor.
Defined.

(** [check_syllable_counts] returns whenever the preconditions hold and
    the empty string is not a word of the dictionary. *)
Lemma for_is_Some {S A} (xs : list A) (body : S → A → option S) s :
  (∀ s x, x ∈ xs → is_Some (body s x)) → is_Some (Py.for_ xs body s).
Proof.
  revert s. induction xs as [|x xs IH]; intros s Hb; simpl; [done|].
  destruct (Hb s x) as [s' ->]; [left|]. simpl.
  apply IH. intros. apply Hb. by right.
Qed.

Lemma get_syllable_count_is_Some poem_line
  (word_to_phonemes : PRONUNCIATION_DICT) :
  word_to_phonemes !! "" = None →
  is_Some (get_syllable_count poem_line word_to_phonemes).
Proof.
  intros Hd. unfold get_syllable_count. apply for_is_Some. intros count c _.
  case_bool_decide; [|done]. apply for_is_Some. intros n j Hj.
  destruct (is_vowel_phoneme_is_Some j) as [v ->]; [|done].
  intros Hempty. unfold Py.keys in Hj.
  apply list_elem_of_fmap in Hj as ([k ph] & Hk & Hin).
  apply elem_of_map_to_list in Hin. simpl in Hk. congruence.
Qed.

Lemma check_syllable_counts_is_Some poem_lines
  (description : POETRY_FORM_DESCRIPTION)
  (word_to_phonemes : PRONUNCIATION_DICT) :
  length poem_lines = length description.1 →
  word_to_phonemes !! "" = None →
  is_Some (check_syllable_counts poem_lines description word_to_phonemes).
Proof.
  intros Hlen Hd. unfold check_syllable_counts.
  rewrite check_lines_zip by done.
  apply for_is_Some. intros inv [line req] _. simpl.
  case_bool_decide; [|done].
  destruct (get_syllable_count_is_Some line _ Hd) as [n ->]. simpl.
  by case_bool_decide.
Qed.

(** * Further properties of [poetry_functions.py] *)

(** ** What [transform_string] returns *)

Lemma upper_char_punctuation c :
  Py.upper_char c ∈ Py.chars punctuation ↔ c ∈ Py.chars punctuation.
Proof.
  rewrite <- (bool_decide_eq_true (Py.upper_char c ∈ _)).
  rewrite <- (bool_decide_eq_true (c ∈ _)).
  assert (bool_decide (Py.upper_char c ∈ Py.chars punctuation)
          = bool_decide (c ∈ Py.chars punctuation)) as ->; [|done].
  destruct c as [[] [] [] [] [] [] [] []]; vm_compute; reflexivity.
Qed.

Lemma rstrip_fixed cs s :
  lstripped cs (reverse s) → Py.rstrip_chars cs s = s.
Proof.
  intros Hs. unfold Py.rstrip_chars.
  by rewrite (lstrip_fixed _ _ Hs), reverse_involutive.
Qed.

Lemma lstripped_head cs s :
  lstripped cs s ↔ ∀ c, head s = Some c → c ∉ cs.
Proof.
  destruct s as [|a s]; simpl.
  - split; [by intros _ c|done].
  - split; [by intros Ha c [= <-]|auto].
Qed.

(** The result of [transform_string] neither starts nor ends with a
    punctuation character, and [str.upper] leaves it unchanged. *)
Theorem transform_string_stripped (s : string) :
  (∀ c, head (Py.chars (transform_string s)) = Some c →
        c ∉ Py.chars punctuation) ∧
  (∀ c, last (Py.chars (transform_string s)) = Some c →
        c ∉ Py.chars punctuation) ∧
  Py.upper (transform_string s) = transform_string s.
Proof.
  split_and!.
  - apply lstripped_head. unfold transform_string, Py.strip.
    rewrite chars_str. apply rstrip_lstripped, lstrip_lstripped.
  - intros c. rewrite <- head_reverse. revert c. apply lstripped_head.
    unfold transform_string, Py.strip, Py.rstrip_chars.
    rewrite chars_str, reverse_involutive. apply lstrip_lstripped.
  - apply upper_strip_upper.
Qed.

(** Inner punctuation is left untouched: a string whose first and last
    characters are not punctuation is only converted to uppercase. *)
Theorem transform_string_inner (s : string) (a b : ascii) :
  head (Py.chars s) = Some a → last (Py.chars s) = Some b →
  a ∉ Py.chars punctuation → b ∉ Py.chars punctuation →
  transform_string s = Py.upper s.
Proof.
  intros Ha Hb Hna Hnb. unfold transform_string, Py.strip, Py.upper.
  rewrite chars_str. f_equal.
  rewrite lstrip_fixed.
  - apply rstrip_fixed, lstripped_head. intros c.
    rewrite head_reverse, fmap_last, Hb. intros [= <-].
    by rewrite upper_char_punctuation.
  - apply lstripped_head. intros c.
    rewrite <- (reverse_involutive (_ <$> _)), head_reverse, last_reverse.
    destruct (Py.chars s) as [|a' cs]; [done|]. simpl in *.
    injection Ha as ->. intros [= <-]. by rewrite upper_char_punctuation.
Qed.

Lemma transform_string_inner_witness :
  transform_string "to be? Or not to be" = Py.upper "to be? Or not to be".
Proof.
  apply (transform_string_inner "to be? Or not to be" "t" "e").
  - reflexivity.
  - reflexivity.
  - apply (bool_decide_eq_false_1 ("t"%char ∈ Py.chars punctuation)).
    reflexivity.
  - apply (bool_decide_eq_false_1 ("e"%char ∈ Py.chars punctuation)).
    reflexivity.
Defined.

(** ** [is_vowel_phoneme] *)

(** [is_vowel_phoneme] raises on the empty string only, and otherwise
    tells whether the last character is one of [0], [1], [2]. *)
Theorem is_vowel_phoneme_last_char (phoneme : string) :
  (is_vowel_phoneme phoneme = None ↔ phoneme = "") ∧
  (∀ cs c, Py.chars phoneme = cs ++ [c] →
     is_vowel_phoneme phoneme
     = Some (bool_decide (c = "0"%char ∨ c = "1"%char ∨ c = "2"%char))).
Proof.
  split.
  - split; [|by intros ->].
    intros Hn. destruct (decide (phoneme = "")) as [|Hne]; [done|].
    destruct (is_vowel_phoneme_is_Some _ Hne) as [v Hv]. congruence.
  - intros cs c Hc. unfold is_vowel_phoneme.
    rewrite getitem_last, Hc, last_snoc. simpl. f_equal.
    apply bool_decide_ext. rewrite !elem_of_cons, elem_of_nil. tauto.
Qed.

(** ** [get_last_syllable] *)

Lemma get_last_syllable_loop word_phonemes :
  get_last_syllable word_phonemes
  = r ← last_syllable_loop word_phonemes;
    match r with
    | Py.Return syll => Some syll
    | Py.Continue _ => Some []
    end.
Proof. reflexivity. Qed.

Lemma range_down_S n : Py.range_down (S n) = Z.of_nat n :: Py.range_down n.
Proof. unfold Py.range_down. by rewrite range_snoc, reverse_snoc. Qed.

Lemma for_ret_ext {R S A} (xs : list A)
  (body body' : S → A → option (Py.flow R S)) s :
  (∀ s x, x ∈ xs → body s x = body' s x) →
  Py.for_ret xs body s = Py.for_ret xs body' s.
Proof.
  revert s. induction xs as [|x xs IH]; intros s Hb; simpl; [done|].
  rewrite Hb by left. destruct (body' s x) as [[r|s']|]; simpl; try done.
  apply IH. intros. apply Hb. by right.
Qed.

(** The loop on a sequence with one more phoneme at the end: the new
    phoneme is read first. *)
Lemma last_syllable_loop_snoc ph p :
  last_syllable_loop (ph ++ [p])
  = v ← is_vowel_phoneme p;
    if v : bool then Some (Py.Return [p])
    else r ← last_syllable_loop ph;
         Some (match r with
               | Py.Return syll => Py.Return (syll ++ [p])
               | Py.Continue u => Py.Continue u
               end).
Proof.
  unfold last_syllable_loop.
  rewrite length_app, Nat.add_1_r, range_down_S. simpl.
  rewrite getitem_of_nat, list_lookup_middle by done. simpl.
  destruct (is_vowel_phoneme p) as [[]|]; simpl; [| |done].
  - unfold Py.slice_from. rewrite bool_decide_eq_true_2 by lia.
    by rewrite Nat2Z.id, drop_app_length.
  - assert (∀ xs : list Z, (∀ i, i ∈ xs → i ∈ Py.range (length ph)) →
      Py.for_ret xs
        (λ (_ : unit) i,
           q ← Py.getitem (ph ++ [p]) i;
           v ← is_vowel_phoneme q;
           if v : bool
           then Some (Py.Return (Py.slice_from (ph ++ [p]) i))
           else Some (Py.Continue ())) ()
      = r ← Py.for_ret xs
              (λ (_ : unit) i,
                 q ← Py.getitem ph i;
                 v ← is_vowel_phoneme q;
                 if v : bool then Some (Py.Return (Py.slice_from ph i))
                 else Some (Py.Continue ())) ();
        Some (match r with
              | Py.Return syll => Py.Return (syll ++ [p])
              | Py.Continue u => Py.Continue u
              end)) as Hloop.
    { induction xs as [|i xs IH]; intros Hxs; simpl; [done|].
      assert (i ∈ Py.range (length ph)) as (k & -> & Hk)%elem_of_range
        by (apply Hxs; left).
      rewrite !getitem_of_nat, lookup_app_l by done.
      destruct (ph !! k) as [q|]; simpl; [|done].
      destruct (is_vowel_phoneme q) as [[]|]; simpl; [|apply IH|done].
      - unfold Py.slice_from. rewrite !bool_decide_eq_true_2 by lia.
        by rewrite Nat2Z.id, drop_app_le by lia.
      - intros j Hj. apply Hxs. by right. }
    apply Hloop. intros i Hi. unfold Py.range_down in Hi.
    by rewrite elem_of_reverse in Hi.
Qed.

(** From the last vowel phoneme on: the result when a vowel is followed
    by consonants only. *)
Lemma last_syllable_loop_vowel pre v post :
  vowel v → Forall consonant post →
  last_syllable_loop (pre ++ v :: post) = Some (Py.Return (v :: post)).
Proof.
  intros Hv. induction post as [|c post IH] using rev_ind; intros Hpost.
  - rewrite last_syllable_loop_snoc, Hv. done.
  - apply Forall_app in Hpost as [Hpost [Hc _]%Forall_cons_1].
    change (pre ++ v :: post ++ [c]) with (pre ++ (v :: post) ++ [c]).
    rewrite app_assoc, last_syllable_loop_snoc, Hc. simpl.
    by rewrite IH.
Qed.

Lemma last_syllable_loop_consonants ph :
  Forall consonant ph → last_syllable_loop ph = Some (Py.Continue ()).
Proof.
  induction ph as [|c ph IH] using rev_ind; intros Hph; [done|].
  apply Forall_app in Hph as [Hph [Hc _]%Forall_cons_1].
  rewrite last_syllable_loop_snoc, Hc. simpl. by rewrite IH.
Qed.

Lemma last_syllable_loop_empty pre post :
  Forall consonant post → last_syllable_loop (pre ++ "" :: post) = None.
Proof.
  induction post as [|c post IH] using rev_ind; intros Hpost.
  - by rewrite last_syllable_loop_snoc.
  - apply Forall_app in Hpost as [Hpost [Hc _]%Forall_cons_1].
    change (pre ++ "" :: post ++ [c]) with (pre ++ ("" :: post) ++ [c]).
    rewrite app_assoc, last_syllable_loop_snoc, Hc. simpl.
    by rewrite IH.
Qed.

(** Every sequence is of one of three shapes. *)
Lemma phonemes_cases (ph : PHONEMES) :
  Forall consonant ph ∨
  (∃ pre v post, ph = pre ++ v :: post ∧ vowel v ∧ Forall consonant post) ∨
  (∃ pre post, ph = pre ++ "" :: post ∧ Forall consonant post).
Proof.
  induction ph as [|p ph IH] using rev_ind; [by left|].
  destruct (is_vowel_phoneme p) as [[]|] eqn:Hp.
  - right. left. exists ph, p, []. by repeat split.
  - destruct IH as [Hc|[(pre & v & post & -> & Hv & Hpost)
                       |(pre & post & -> & Hpost)]].
    + left. apply Forall_app. split; [done|]. by constructor.
    + right. left. exists pre, v, (post ++ [p]). split_and!; [|done|].
      * by rewrite <- app_assoc.
      * apply Forall_app. split; [done|]. by constructor.
    + right. right. exists pre, (post ++ [p]). split.
      * by rewrite <- app_assoc.
      * apply Forall_app. split; [done|]. by constructor.
  - right. right. exists ph, []. split; [|done].
    destruct (decide (p = "")) as [->|Hne]; [done|].
    destruct (is_vowel_phoneme_is_Some _ Hne). congruence.
Qed.

(** The last syllable is the last vowel phoneme with the consonant
    phonemes after it, in their order. *)
Theorem get_last_syllable_last_vowel (pre : PHONEMES) (v : string)
  (post : PHONEMES) :
  is_vowel_phoneme v = Some true →
  Forall (λ p, is_vowel_phoneme p = Some false) post →
  get_last_syllable (pre ++ v :: post) = Some (v :: post).
Proof.
  intros Hv Hpost.
  by rewrite get_last_syllable_loop, last_syllable_loop_vowel.
Qed.

Lemma get_last_syllable_last_vowel_witness :
  get_last_syllable (["AE1"; "B"; "S"] ++ "IH0" :: ["N"; "TH"])
  = Some ("IH0" :: ["N"; "TH"]).
Proof.
  apply (get_last_syllable_last_vowel ["AE1"; "B"; "S"] "IH0" ["N"; "TH"]).
  - reflexivity.
  - repeat constructor.
Defined.

(** [get_last_syllable] raises exactly when an empty phoneme is met
    before any vowel phoneme, reading from the end. *)
Theorem get_last_syllable_raises_iff (word_phonemes : PHONEMES) :
  get_last_syllable word_phonemes = None ↔
  ∃ pre post,
    word_phonemes = pre ++ "" :: post ∧
    Forall (λ p, is_vowel_phoneme p = Some false) post.
Proof.
  rewrite get_last_syllable_loop. split.
  - intros Hn.
    destruct (phonemes_cases word_phonemes)
      as [Hc|[(pre & v & post & -> & Hv & Hpost)|?]]; [| |done].
    + by rewrite last_syllable_loop_consonants in Hn.
    + by rewrite last_syllable_loop_vowel in Hn.
  - intros (pre & post & -> & Hpost).
    by rewrite last_syllable_loop_empty.
Qed.

(** The last syllable of a last syllable is itself, and a last syllable
    is a suffix of the sequence it is taken from. *)
Theorem get_last_syllable_idempotent (word_phonemes syll : PHONEMES) :
  get_last_syllable word_phonemes = Some syll →
  syll `suffix_of` word_phonemes ∧ get_last_syllable syll = Some syll.
Proof.
  rewrite !get_last_syllable_loop. intros Hs.
  destruct (phonemes_cases word_phonemes)
    as [Hc|[(pre & v & post & -> & Hv & Hpost)|(pre & post & -> & Hpost)]].
  - rewrite last_syllable_loop_consonants in Hs by done.
    injection Hs as <-. split; [apply suffix_nil|done].
  - rewrite last_syllable_loop_vowel in Hs by done. injection Hs as <-.
    split; [by apply suffix_app_r|].
    change (v :: post) with ([] ++ v :: post) at 1.
    by rewrite last_syllable_loop_vowel.
  - by rewrite last_syllable_loop_empty in Hs.
Qed.

Lemma get_last_syllable_idempotent_witness :
  ["IH0"; "N"; "TH"] `suffix_of` ["AE1"; "B"; "S"; "IH0"; "N"; "TH"] ∧
  get_last_syllable ["IH0"; "N"; "TH"] = Some ["IH0"; "N"; "TH"].
Proof.
  apply (get_last_syllable_idempotent
           ["AE1"; "B"; "S"; "IH0"; "N"; "TH"] ["IH0"; "N"; "TH"]).
  reflexivity.
Defined.

(** ** [words_rhyme] as a relation *)

Lemma transform_string_twice s :
  transform_string (transform_string s) = transform_string s.
Proof.
  unfold transform_string. rewrite upper_strip_upper. apply strip_idem.
Qed.

Lemma words_rhyme_true a b (d : PRONUNCIATION_DICT) :
  words_rhyme a b d = Some true ↔
  ∃ pa pb k,
    d !! transform_string a = Some pa ∧ d !! transform_string b = Some pb ∧
    get_last_syllable pa = Some k ∧ get_last_syllable pb = Some k.
Proof.
  unfold words_rhyme.
  destruct (d !! transform_string a) as [pa|] eqn:Ea;
    [|split; [done|by intros (? & ? & ? & ? & _)]].
  destruct (d !! transform_string b) as [pb|] eqn:Eb;
    [|split; [done|by intros (? & ? & ? & _ & ? & _)]].
  destruct (get_last_syllable pa) as [ka|] eqn:Ka; simpl;
    [|split; [done|intros (? & ? & ? & [= <-] & _ & ? & _); congruence]].
  destruct (get_last_syllable pb) as [kb|] eqn:Kb; simpl;
    [|split; [done|intros (? & ? & ? & _ & [= <-] & _ & ?); congruence]].
  split.
  - intros [= ->%bool_decide_eq_true]. eauto 10.
  - intros (? & ? & k & [= <-] & [= <-] & ? & ?).
    f_equal. apply bool_decide_eq_true. congruence.
Qed.

(** Case and punctuation at the ends of the two words do not matter:
    the words are compared after normalisation. *)
Theorem words_rhyme_normalised (word1 word2 : string)
  (word_to_phonemes : PRONUNCIATION_DICT) :
  words_rhyme (transform_string word1) (transform_string word2)
    word_to_phonemes
  = words_rhyme word1 word2 word_to_phonemes.
Proof. unfold words_rhyme. by rewrite !transform_string_twice. Qed.

(** Rhyming is transitive. *)
Theorem words_rhyme_transitive (a b c : string)
  (word_to_phonemes : PRONUNCIATION_DICT) :
  words_rhyme a b word_to_phonemes = Some true →
  words_rhyme b c word_to_phonemes = Some true →
  words_rhyme a c word_to_phonemes = Some true.
Proof.
  rewrite !words_rhyme_true.
  intros (pa & pb & k & Ha & Hb & Hka & Hkb)
         (pb' & pc & k' & Hb' & Hc & Hkb' & Hkc).
  exists pa, pc, k. split_and!; try done. congruence.
Qed.

Lemma words_rhyme_transitive_witness :
  words_rhyme "mouse," "HOUSE" mouse_dict = Some true.
Proof.
  apply (words_rhyme_transitive "mouse," "House!" "HOUSE" mouse_dict);
    reflexivity.
Defined.

(** ** [all_lines_rhyme] and [words_rhyme] *)

Lemma all_lines_rhyme_loops poem_lines lines_to_check word_to_phonemes :
  all_lines_rhyme poem_lines lines_to_check word_to_phonemes
  = r ← collect_last_syllables poem_lines word_to_phonemes lines_to_check [];
    match r with
    | Py.Return b => Some b
    | Py.Continue last =>
        r' ← compare_to_first last last;
        match r' with
        | Py.Return b => Some b
        | Py.Continue _ => Some true
        end
    end.
Proof. reflexivity. Qed.

(** The first loop either collects the last syllable of every line, or
    returns [False] at a line whose last word is unknown. *)
Lemma collect_cases poem d idxs acc :
  phonemes_nonempty d →
  Forall (λ i, is_Some (last_word poem i)) idxs →
  (∃ ks, Forall2 (known_kernel poem d) idxs ks ∧
         collect_last_syllables poem d idxs acc
         = Some (Py.Continue (acc ++ ks))) ∨
  (Exists (unknown_word poem d) idxs ∧
   collect_last_syllables poem d idxs acc = Some (Py.Return false)).
Proof.
  intros Hd Hw. revert acc.
  induction Hw as [|i idxs [w Hi] _ IH]; intros acc.
  { left. exists []. split; [constructor|]. by rewrite app_nil_r. }
  pose proof Hi as Hi'. unfold last_word in Hi'.
  apply bind_Some in Hi' as (line & Hline & Hword).
  unfold collect_last_syllables in *. simpl.
  rewrite Hline. simpl. rewrite Hword. simpl.
  destruct (d !! transform_string w) as [ph|] eqn:Hph.
  - destruct (get_last_syllable_is_Some ph) as [k Hk];
      [by apply (Hd _ _ Hph)|].
    rewrite Hk. simpl.
    destruct (IH (acc ++ [k])) as [(ks & Hks & ->)|[Hex ->]].
    + left. exists (k :: ks). split.
      * constructor; [|done]. by exists w, ph.
      * by rewrite <- app_assoc.
    + right. split; [by right|done].
  - right. split; [|done]. left. by exists w.
Qed.

Lemma compare_cases last k0 js :
  Py.getitem last 0 = Some k0 →
  compare_to_first last js
  = Some (if forallb (λ j, bool_decide (j = k0)) js
          then Py.Continue () else Py.Return false).
Proof.
  intros Hk. unfold compare_to_first. rewrite Hk.
  induction js as [|j js IH]; [done|].
  cbn [Py.for_ret forallb mbind option_bind].
  destruct (decide (j = k0)) as [Heq|Hne].
  - rewrite (bool_decide_eq_false_2 (j ≠ k0)) by (by intros ?).
    by rewrite (bool_decide_eq_true_2 (j = k0)).
  - by rewrite (bool_decide_eq_true_2 (j ≠ k0)),
      (bool_decide_eq_false_2 (j = k0)).
Qed.

Lemma forallb_all_equal (k0 : PHONEMES) js :
  forallb (λ j, bool_decide (j = k0)) js = true ↔ ∀ j, j ∈ js → j = k0.
Proof.
  rewrite forallb_forall. setoid_rewrite <- list_elem_of_In.
  by setoid_rewrite bool_decide_eq_true.
Qed.

Lemma Forall2_elem_of_l {A B} (P : A → B → Prop) l k x :
  Forall2 P l k → x ∈ l → ∃ y, y ∈ k ∧ P x y.
Proof.
  intros HF (i & Hi)%list_elem_of_lookup.
  destruct (Forall2_lookup_l _ _ _ _ _ HF Hi) as (y & Hy & HP).
  exists y. split; [by eapply list_elem_of_lookup_2|done].
Qed.

Lemma Forall2_elem_of_r {A B} (P : A → B → Prop) l k y :
  Forall2 P l k → y ∈ k → ∃ x, x ∈ l ∧ P x y.
Proof.
  intros HF (i & Hi)%list_elem_of_lookup.
  destruct (Forall2_lookup_r _ _ _ _ _ HF Hi) as (x & Hx & HP).
  exists x. split; [by eapply list_elem_of_lookup_2|done].
Qed.

Lemma known_kernel_rhyme poem d i j k k' w w' :
  known_kernel poem d i k → known_kernel poem d j k' →
  last_word poem i = Some w → last_word poem j = Some w' →
  words_rhyme w w' d = Some true ↔ k = k'.
Proof.
  intros (w1 & p1 & Hw1 & Hp1 & Hk1) (w2 & p2 & Hw2 & Hp2 & Hk2) Hw Hw'.
  assert (w1 = w) as -> by congruence.
  assert (w2 = w') as -> by congruence.
  rewrite words_rhyme_true. split.
  - intros (pa & pb & k0 & ? & ? & ? & ?). congruence.
  - intros <-. by exists p1, p2, k.
Qed.

(** What [all_lines_rhyme] computes, for lines that end in a word. *)
Lemma all_lines_rhyme_spec poem idxs d :
  phonemes_nonempty d →
  Forall (λ i, is_Some (last_word poem i)) idxs →
  ∃ b, all_lines_rhyme poem idxs d = Some b ∧
       (b = true ↔ rhyme_pairwise poem d idxs).
Proof.
  intros Hd Hw. rewrite all_lines_rhyme_loops.
  destruct (collect_cases poem d idxs [] Hd Hw)
    as [(ks & Hks & ->)|[Hex ->]]; simpl.
  - destruct Hks as [|i k idxs ks Hik Hks].
    { exists true. split; [done|]. split; [|done].
      by intros _ i j w w' ?%elem_of_nil. }
    rewrite (compare_cases _ k) by done.
    exists (forallb (λ j, bool_decide (j = k)) (k :: ks)). split.
    { by destruct (forallb _ _). }
    rewrite forallb_all_equal.
    assert (Forall2 (known_kernel poem d) (i :: idxs) (k :: ks)) as Hall
      by (by constructor).
    split.
    + intros Heq a b w w' Ha Hb Hwa Hwb.
      destruct (Forall2_elem_of_l _ _ _ _ Hall Ha) as (ka & Hka & Hak).
      destruct (Forall2_elem_of_l _ _ _ _ Hall Hb) as (kb & Hkb & Hbk).
      apply (known_kernel_rhyme poem d a b ka kb); try done.
      by rewrite (Heq ka), (Heq kb).
    + intros Hp j Hj.
      destruct (Forall2_elem_of_r _ _ _ _ Hall Hj) as (a & Ha & Haj).
      pose proof Hik as (w & ? & Hwi & _).
      pose proof Haj as (w' & ? & Hwa & _).
      symmetry.
      apply (known_kernel_rhyme poem d i a k j w w'); try done.
      apply (Hp i a); try done. left.
  - exists false. split; [done|]. split; [done|]. intros Hp.
    apply Exists_exists in Hex as (i & Hi & w & Hwi & Hnone).
    specialize (Hp i i w w Hi Hi Hwi Hwi).
    apply words_rhyme_true in Hp as (? & ? & ? & ? & _). congruence.
Qed.

(** For lines that each end in a word, and a dictionary with non-empty
    phonemes, [all_lines_rhyme] returns, and returns [True] exactly when
    the last words of the checked lines rhyme pairwise according to
    [words_rhyme]. *)
Theorem all_lines_rhyme_pairwise (poem_lines : POEM)
  (lines_to_check : list Z) (word_to_phonemes : PRONUNCIATION_DICT) :
  phonemes_nonempty word_to_phonemes →
  Forall (λ i, is_Some (last_word poem_lines i)) lines_to_check →
  ∃ b, all_lines_rhyme poem_lines lines_to_check word_to_phonemes = Some b ∧
       (b = true ↔
        ∀ i j w w',
          i ∈ lines_to_check → j ∈ lines_to_check →
          last_word poem_lines i = Some w →
          last_word poem_lines j = Some w' →
          words_rhyme w w' word_to_phonemes = Some true).
Proof. apply all_lines_rhyme_spec. Qed.

Lemma mouse_dict_nonempty : phonemes_nonempty mouse_dict.
Proof.
  apply map_Forall_to_list. vm_compute.
  repeat (constructor; simpl; try discriminate).
Qed.

Lemma all_lines_rhyme_pairwise_witness :
  ∃ b, all_lines_rhyme mouse_poem [0; 1; 2] mouse_dict = Some b ∧
       (b = true ↔
        ∀ i j w w',
          i ∈ [0; 1; 2] → j ∈ [0; 1; 2] →
          last_word mouse_poem i = Some w →
          last_word mouse_poem j = Some w' →
          words_rhyme w w' mouse_dict = Some true).
Proof.
  apply (all_lines_rhyme_pairwise mouse_poem [0; 1; 2] mouse_dict).
  - apply mouse_dict_nonempty.
  - repeat constructor; by eexists.
Defined.

(** The result depends on the set of checked indices only: neither
    their order nor repetitions matter. *)
Theorem all_lines_rhyme_same_indices (poem_lines : POEM)
  (lines_to_check lines_to_check' : list Z)
  (word_to_phonemes : PRONUNCIATION_DICT) :
  phonemes_nonempty word_to_phonemes →
  Forall (λ i, is_Some (last_word poem_lines i)) lines_to_check →
  (∀ i, i ∈ lines_to_check ↔ i ∈ lines_to_check') →
  all_lines_rhyme poem_lines lines_to_check word_to_phonemes
  = all_lines_rhyme poem_lines lines_to_check' word_to_phonemes.
Proof.
  intros Hd Hw Hsame.
  assert (Forall (λ i, is_Some (last_word poem_lines i)) lines_to_check')
    as Hw'.
  { rewrite Forall_forall in Hw |- *. intros i Hi. by apply Hw, Hsame. }
  destruct (all_lines_rhyme_spec _ _ _ Hd Hw) as (b & -> & Hb).
  destruct (all_lines_rhyme_spec _ _ _ Hd Hw') as (b' & -> & Hb').
  f_equal. apply eq_true_iff_eq. rewrite Hb, Hb'.
  unfold rhyme_pairwise. by setoid_rewrite Hsame.
Qed.

Lemma all_lines_rhyme_same_indices_witness :
  all_lines_rhyme mouse_poem [0; 1; 2] mouse_dict
  = all_lines_rhyme mouse_poem [2; 1; 1; 0] mouse_dict.
Proof.
  apply (all_lines_rhyme_same_indices mouse_poem [0; 1; 2] [2; 1; 1; 0]
           mouse_dict).
  - apply mouse_dict_nonempty.
  - repeat constructor; by eexists.
  - intros i. rewrite !elem_of_cons, !elem_of_nil. tauto.
Defined.

(** ** What [get_syllable_count] counts *)

Lemma count_keys_loop (ks : list string) (n : Z) :
  Forall (λ k, k ≠ "") ks →
  Py.for_ ks
    (λ count j,
       v ← is_vowel_phoneme j;
       Some (if v : bool then count + 1 else count)) n
  = Some (n + Z.of_nat
                (length (filter (λ k, is_vowel_phoneme k = Some true) ks))).
Proof.
  intros Hks. revert n. induction Hks as [|k ks Hk _ IH]; intros n; simpl.
  - f_equal. lia.
  - destruct (is_vowel_phoneme_is_Some k Hk) as [v Hv]. rewrite Hv. simpl.
    rewrite IH. f_equal. destruct v.
    + rewrite filter_cons_True by done. simpl. lia.
    + rewrite filter_cons_False by congruence. done.
Qed.

Lemma keys_nonempty (d : PRONUNCIATION_DICT) :
  d !! "" = None → Forall (λ k, k ≠ "") (Py.keys d).
Proof.
  intros Hd. apply Forall_forall. intros k Hk Hempty. unfold Py.keys in Hk.
  apply list_elem_of_fmap in Hk as ([k' ph] & Hk' & Hin).
  apply elem_of_map_to_list in Hin. simpl in Hk'. congruence.
Qed.

(** The code counts, for every character of the normalised line that
    is itself a word of the dictionary, the words of the dictionary that
    end in 0, 1 or 2. It returns whenever the empty string is not a word
    of the dictionary. *)
Theorem get_syllable_count_value (poem_line : POEM_LINE)
  (word_to_phonemes : PRONUNCIATION_DICT) :
  word_to_phonemes !! "" = None →
  get_syllable_count poem_line word_to_phonemes
  = Some (Z.of_nat
            (length (filter (λ c, is_Some (word_to_phonemes !! Py.str [c]))
                       (Py.chars (transform_string poem_line))))
          * Z.of_nat
              (length (filter (λ k, is_vowel_phoneme k = Some true)
                         (Py.keys word_to_phonemes)))).
Proof.
  intros Hd. unfold get_syllable_count.
  pose proof (keys_nonempty _ Hd) as Hks.
  generalize (Py.chars (transform_string poem_line)). intros cs.
  enough (∀ n,
    Py.for_ cs
      (λ count i,
         if bool_decide (is_Some (word_to_phonemes !! Py.str [i]))
         then Py.for_ (Py.keys word_to_phonemes)
                (λ count j,
                   v ← is_vowel_phoneme j;
                   Some (if v : bool then count + 1 else count)) count
         else Some count) n
    = Some (n + Z.of_nat
                  (length (filter
                     (λ c, is_Some (word_to_phonemes !! Py.str [c])) cs))
                * Z.of_nat
                    (length (filter (λ k, is_vowel_phoneme k = Some true)
                               (Py.keys word_to_phonemes))))) as ->.
  { f_equal; lia. }
  induction cs as [|c cs IH]; intros n; simpl.
  - f_equal. lia.
  - case_bool_decide as Hc.
    + rewrite count_keys_loop by done. simpl. rewrite IH.
      rewrite filter_cons_True by done. simpl. f_equal. lia.
    + simpl. rewrite IH. by rewrite filter_cons_False.
Qed.

Lemma get_syllable_count_value_witness :
  get_syllable_count "Then! the #poem ends." small_dict = Some (0 * 0).
Proof.
  apply (get_syllable_count_value "Then! the #poem ends." small_dict).
  reflexivity.
Defined.

(** ** What [check_syllable_counts] reports *)

Lemma flag_lines_filter (d : PRONUNCIATION_DICT)
  (pairs : list (string * Z)) acc :
  d !! "" = None →
  Py.for_ pairs (flag_line d) acc
  = Some (acc ++ (filter (miscounted d) pairs).*1).
Proof.
  intros Hd. revert acc.
  induction pairs as [|[line req] pairs IH]; intros acc; simpl.
  - by rewrite app_nil_r.
  - destruct (get_syllable_count_is_Some line d Hd) as [n Hn].
    case_bool_decide as Hreq.
    + rewrite Hn. simpl. case_bool_decide as Hneq; simpl; rewrite IH.
      * rewrite filter_cons_True.
        -- csimpl. by rewrite <- app_assoc.
        -- split; [done|]. simpl. congruence.
      * rewrite filter_cons_False; [done|].
        intros [_ Hm]. simpl in Hm. congruence.
    + simpl. rewrite IH. rewrite filter_cons_False; [done|].
      by intros [? _].
Qed.

(** With as many counts as lines (and no empty word in the dictionary)
    the result is made of the lines whose required count is not 0 and
    differs from what [get_syllable_count] returns, in the order of the
    poem. *)
Theorem check_syllable_counts_filter (poem_lines : POEM)
  (description : POETRY_FORM_DESCRIPTION)
  (word_to_phonemes : PRONUNCIATION_DICT) :
  length poem_lines = length description.1 →
  word_to_phonemes !! "" = None →
  check_syllable_counts poem_lines description word_to_phonemes
  = Some (filter (miscounted word_to_phonemes)
            (zip poem_lines description.1)).*1 ∧
  (filter (miscounted word_to_phonemes)
     (zip poem_lines description.1)).*1 `sublist_of` poem_lines.
Proof.
  intros Hlen Hd. split.
  - unfold check_syllable_counts. rewrite check_lines_zip by done.
    by rewrite flag_lines_filter.
  - rewrite <- (fst_zip poem_lines description.1) at 2 by lia.
    apply fmap_sublist, sublist_filter.
Qed.

Lemma check_syllable_counts_filter_witness :
  check_syllable_counts example_poem ([5; 0; 4], ["*"; "*"; "*"]) example_dict
  = Some (filter (miscounted example_dict)
            (zip example_poem [5; 0; 4])).*1.
Proof.
  apply (check_syllable_counts_filter
           example_poem ([5; 0; 4], ["*"; "*"; "*"]) example_dict).
  - reflexivity.
  - reflexivity.
Defined.

Lemma range_split (n m : nat) :
  (n < m)%nat →
  Py.range m
  = Py.range n ++ Z.of_nat n :: (Z.of_nat <$> seq (S n) (m - S n)).
Proof.
  intros Hnm. unfold Py.range.
  replace m with (n + S (m - S n))%nat at 1 by lia.
  by rewrite seq_app, fmap_app.
Qed.

(** With fewer counts than lines the call raises. *)
Theorem check_syllable_counts_too_few (poem_lines : POEM)
  (description : POETRY_FORM_DESCRIPTION)
  (word_to_phonemes : PRONUNCIATION_DICT) :
  (length description.1 < length poem_lines)%nat →
  check_syllable_counts poem_lines description word_to_phonemes = None.
Proof.
  intros Hlen. unfold check_syllable_counts.
  rewrite (range_split _ _ Hlen), for_app.
  destruct (Py.for_ (Py.range _) _ _) as [inv|]; [|done].
  simpl. rewrite check_line_lookup, !getitem_of_nat.
  destruct (lookup_lt_is_Some_2 poem_lines (length description.1) Hlen)
    as [line ->].
  simpl. by rewrite lookup_ge_None_2.
Qed.

Lemma check_syllable_counts_too_few_witness :
  check_syllable_counts example_poem ([5; 5], ["*"; "*"; "*"]) example_dict
  = None.
Proof.
  apply (check_syllable_counts_too_few
           example_poem ([5; 5], ["*"; "*"; "*"]) example_dict).
  simpl. lia.
Defined.

(** Counts beyond the length of the poem are not read. *)
Theorem check_syllable_counts_surplus (poem_lines : POEM)
  (description : POETRY_FORM_DESCRIPTION)
  (word_to_phonemes : PRONUNCIATION_DICT) :
  (length poem_lines ≤ length description.1)%nat →
  check_syllable_counts poem_lines description word_to_phonemes
  = check_syllable_counts poem_lines
      (take (length poem_lines) description.1, description.2)
      word_to_phonemes.
Proof.
  intros Hlen. unfold check_syllable_counts. simpl.
  apply for_ext. intros inv i (k & -> & Hk)%elem_of_range.
  rewrite !check_line_lookup, !getitem_of_nat.
  by rewrite lookup_take_lt.
Qed.

Lemma check_syllable_counts_surplus_witness :
  check_syllable_counts example_poem ([0; 0; 0; 7], ["*"; "*"; "*"])
    example_dict
  = check_syllable_counts example_poem ([0; 0; 0], ["*"; "*"; "*"])
      example_dict.
Proof.
  apply (check_syllable_counts_surplus
           example_poem ([0; 0; 0; 7], ["*"; "*"; "*"]) example_dict).
  simpl. lia.
Defined.

(** ** What [check_rhyme_scheme] reports *)

Lemma for_None {S A} (xs : list A) x (body : S → A → option S) s :
  x ∈ xs → (∀ s, body s x = None) → Py.for_ xs body s = None.
Proof.
  intros Hx Hb. revert s.
  induction xs as [|a xs IH]; intros s; [by apply elem_of_nil in Hx|].
  simpl. apply elem_of_cons in Hx as [<-|Hx].
  - by rewrite Hb.
  - destruct (body s a); simpl; auto.
Qed.

Lemma for_invariant {S A} (P : S → Prop) (xs : list A)
  (body : S → A → option S) s s' :
  P s →
  (∀ s x s', x ∈ xs → P s → body s x = Some s' → P s') →
  Py.for_ xs body s = Some s' → P s'.
Proof.
  revert s. induction xs as [|x xs IH]; intros s Hs Hstep; simpl.
  - by intros [= <-].
  - destruct (body s x) as [s1|] eqn:Hb; simpl; [|done].
    apply IH.
    + eapply Hstep; [left|done..].
    + intros s2 y s3 Hy. apply Hstep. by right.
Qed.

(** The labels of a scheme made of ['*'] only are not checked: the
    result is empty whatever the poem and the dictionary are. *)
Theorem check_rhyme_scheme_unconstrained (poem_lines : POEM)
  (description : POETRY_FORM_DESCRIPTION)
  (word_to_phonemes : PRONUNCIATION_DICT) :
  Forall (λ label, label = "*") description.2 →
  check_rhyme_scheme poem_lines description word_to_phonemes = Some [].
Proof.
  intros Hstar. rewrite Forall_forall in Hstar.
  destruct (get_rhyme_label_to_lines_inv description.2)
    as (m & Hm & [_ Hk]).
  unfold check_rhyme_scheme. rewrite Hm. simpl.
  apply for_id. intros bad [label js] Hin.
  assert (label = "*") as ->.
  { apply Hstar, Hk. by apply (list_elem_of_fmap_2 fst) in Hin. }
  done.
Qed.

Lemma check_rhyme_scheme_unconstrained_witness :
  check_rhyme_scheme [] ([5; 7; 5], ["*"; "*"; "*"]) ∅ = Some [].
Proof.
  apply (check_rhyme_scheme_unconstrained [] ([5; 7; 5], ["*"; "*"; "*"]) ∅).
  repeat constructor.
Defined.

Lemma check_group_cases poem d acc label js acc' :
  check_group poem d acc (label, js) = Some acc' →
  (acc' = acc ∧
   (label = "*" ∨ all_lines_rhyme poem js d = Some true)) ∨
  (∃ line, label ≠ "*" ∧ mapM (Py.getitem poem) js = Some line ∧
           all_lines_rhyme poem js d = Some false ∧
           acc' = acc ++ [line] ++ [line]).
Proof.
  unfold check_group. case_bool_decide as Hl.
  - destruct (mapM _ js) as [line|]; simpl; [|done].
    destruct (all_lines_rhyme poem js d) as [[]|]; simpl; [| |done].
    + intros [= <-]. left. auto.
    + intros [= <-]. right. exists line. by rewrite <- app_assoc.
  - intros [= <-]. left. split; [done|]. left.
    by destruct (decide (label = "*")).
Qed.

(** The strictly increasing indices of a group select the lines in the
    order of the poem. *)
Lemma increasing_indices_sublist (poem : list string) js line (n : nat) :
  StronglySorted Z.lt js → (∀ j, j ∈ js → Z.of_nat n ≤ j) →
  mapM (Py.getitem poem) js = Some line →
  line `sublist_of` drop n poem.
Proof.
  intros Hs. revert n line.
  induction Hs as [|j js Hs IH Hlt]; intros n line Hge.
  - intros [= <-]. apply sublist_nil_l.
  - simpl. intros Hm.
    destruct (Py.getitem poem j) as [x|] eqn:Hj; simpl in Hm; [|done].
    destruct (mapM (Py.getitem poem) js) as [rest|] eqn:Hrest;
      simpl in Hm; [|done].
    injection Hm as <-.
    assert (Z.of_nat n ≤ j) as Hnj by (apply Hge; left).
    replace j with (Z.of_nat (Z.to_nat j)) in Hj by lia.
    rewrite getitem_of_nat in Hj.
    assert (drop n poem !! (Z.to_nat j - n)%nat = Some x) as Hx.
    { rewrite lookup_drop. by replace (n + (Z.to_nat j - n))%nat
        with (Z.to_nat j) by lia. }
    rewrite <- (take_drop_middle _ _ _ Hx).
    apply sublist_inserts_l, sublist_skip.
    rewrite drop_drop.
    replace (n + S (Z.to_nat j - n))%nat with (S (Z.to_nat j)) by lia.
    apply IH; [|done]. intros i Hi. rewrite Forall_forall in Hlt.
    specialize (Hlt i Hi). lia.
Qed.

Lemma group_indices rs m label js :
  labels_inv rs m → (label, js) ∈ m →
  StronglySorted Z.lt js ∧
  ∀ j, j ∈ js ↔ ∃ k : nat, j = Z.of_nat k ∧ rs !! k = Some label.
Proof.
  intros [[Hnd Hg] _] Hin. apply Hg. by apply odict_elem_of_get.
Qed.

(** Every inner list of the result holds lines of the poem in the order
    of the poem. *)
Theorem check_rhyme_scheme_inner_order (poem_lines : POEM)
  (description : POETRY_FORM_DESCRIPTION)
  (word_to_phonemes : PRONUNCIATION_DICT)
  (bad_lines : list (list POEM_LINE)) :
  check_rhyme_scheme poem_lines description word_to_phonemes
  = Some bad_lines →
  ∀ inner, inner ∈ bad_lines → inner `sublist_of` poem_lines.
Proof.
  destruct (get_rhyme_label_to_lines_inv description.2)
    as (m & Hm & Hinv).
  unfold check_rhyme_scheme. rewrite Hm. simpl.
  apply (for_invariant
           (λ acc, ∀ inner, inner ∈ acc → inner `sublist_of` poem_lines)).
  - by intros inner ?%elem_of_nil.
  - intros acc [label js] acc' Hin Hacc Hstep inner Hinner.
    apply check_group_cases in Hstep
      as [[-> _]|(line & _ & Hline & _ & ->)]; [auto|].
    rewrite !elem_of_app, !list_elem_of_singleton in Hinner.
    destruct Hinner as [?|[->| ->]]; [auto|..];
      destruct (group_indices _ _ _ _ Hinv Hin) as [Hs Hmem];
      apply (increasing_indices_sublist poem_lines js line 0); try done;
      intros j (k & -> & _)%Hmem; lia.
Qed.

Lemma check_rhyme_scheme_inner_order_witness :
  ["The first line leads off,"; "Then the poem ends."]
  `sublist_of` example_poem.
Proof.
  apply (check_rhyme_scheme_inner_order
           example_poem ([5; 7; 5], ["A"; "B"; "A"]) example_dict
           [["The first line leads off,"; "Then the poem ends."];
            ["The first line leads off,"; "Then the poem ends."]]).
  - reflexivity.
  - left.
Defined.

(** When the poem has no line at an index whose label is not ['*'],
    the call raises. *)
Theorem check_rhyme_scheme_poem_too_short (poem_lines : POEM)
  (description : POETRY_FORM_DESCRIPTION)
  (word_to_phonemes : PRONUNCIATION_DICT) (i : nat) (label : string) :
  (length poem_lines ≤ i)%nat →
  description.2 !! i = Some label → label ≠ "*" →
  check_rhyme_scheme poem_lines description word_to_phonemes = None.
Proof.
  intros Hlen Hi Hlabel.
  destruct (get_rhyme_label_to_lines_inv description.2)
    as (m & Hm & Hinv).
  unfold check_rhyme_scheme. rewrite Hm. simpl.
  pose proof Hinv as [[Hnd Hg] Hk].
  assert (label ∈ m.*1) as Hin by (by eapply Hk, list_elem_of_lookup_2).
  destruct (Py.get m label) as [js|] eqn:Hjs;
    [|by apply odict_get_None in Hjs].
  apply (for_None _ (label, js)); [by apply odict_get_elem_of|].
  intros acc. unfold check_group. rewrite bool_decide_eq_true_2 by done.
  destruct (mapM (Py.getitem poem_lines) js) as [line|] eqn:Hline; [|done].
  exfalso. assert (is_Some (mapM (Py.getitem poem_lines) js)) as Hsome
    by (by eexists).
  apply mapM_is_Some_1 in Hsome. rewrite Forall_forall in Hsome.
  destruct (Hsome (Z.of_nat i)) as [x Hx].
  { apply (Hg _ _ Hjs). by exists i. }
  rewrite getitem_of_nat in Hx. apply lookup_lt_Some in Hx. lia.
Qed.

Lemma check_rhyme_scheme_poem_too_short_witness :
  check_rhyme_scheme ["The mouse"] ([0; 0], ["*"; "A"]) mouse_dict = None.
Proof.
  apply (check_rhyme_scheme_poem_too_short
           ["The mouse"] ([0; 0], ["*"; "A"]) mouse_dict 1 "A").
  - simpl. lia.
  - reflexivity.
  - discriminate.
Defined.

Lemma check_groups_report poem d (xs : list (string * list Z)) acc :
  (∀ label js, (label, js) ∈ xs →
     is_Some (mapM (Py.getitem poem) js) ∧
     is_Some (all_lines_rhyme poem js d)) →
  ∃ out, Py.for_ xs (check_group poem d) acc = Some out ∧
         ∀ inner, inner ∈ out ↔ inner ∈ acc ∨ failing_group poem d xs inner.
Proof.
  revert acc. induction xs as [|[label js] xs IH]; intros acc Hok.
  - exists acc. split; [done|]. intros inner. split; [auto|].
    by intros [?|(? & ? & ?%elem_of_nil & _)].
  - destruct (Hok label js) as [[line Hline] [b Hb]]; [left|].
    assert (∃ acc', check_group poem d acc (label, js) = Some acc' ∧
              ∀ inner, inner ∈ acc' ↔
                inner ∈ acc ∨ failing_group poem d [(label, js)] inner)
      as (acc' & Hstep & Hacc').
    { unfold check_group, failing_group. case_bool_decide as Hl.
      - rewrite Hline, Hb. simpl. destruct b; simpl.
        + exists acc. split; [done|]. intros inner. split; [auto|].
          intros [?|(l & j & [= -> ->]%list_elem_of_singleton & _ & _ & ?)];
            [done|congruence].
        + exists ((acc ++ [line]) ++ [line]). split; [done|]. intros inner.
          rewrite !elem_of_app, !list_elem_of_singleton. split.
          * intros [[?| ->]| ->]; [by left|right..];
              exists label, js; split_and!; try done; left.
          * intros [?|(l & j & [= -> ->]%list_elem_of_singleton & _ & Hm & _)];
              [by left; left|].
            right. congruence.
      - exists acc. split; [done|]. intros inner. split; [auto|].
        intros [?|(l & j & [= -> ->]%list_elem_of_singleton & ? & _)]; done. }
    destruct (IH acc') as (out & Hout & Hmem).
    { intros l j Hin. apply (Hok l j). by right. }
    exists out. cbn [Py.for_]. rewrite Hstep. split; [done|].
    intros inner. rewrite Hmem, Hacc'. unfold failing_group.
    split.
    + intros [[?|(l & j & Hin & ?)]|(l & j & Hin & ?)]; [by left|right..];
        exists l, j; (split; [|done]).
      * apply list_elem_of_singleton in Hin as [= -> ->]. left.
      * by right.
    + intros [?|(l & j & Hin & ?)]; [by left; left|].
      apply elem_of_cons in Hin as [[= -> ->]|Hin]; [left; right|right];
        [exists label, js|exists l, j]; (split; [|done]); [left|done].
Qed.

(** With as many labels as lines, lines that each end in a word and a
    dictionary with non-empty phonemes, [check_rhyme_scheme] returns,
    and an inner list is in the result exactly when it holds the lines
    of a group, of a label other than ['*'], that [all_lines_rhyme]
    rejects. *)
Theorem check_rhyme_scheme_reports (poem_lines : POEM)
  (description : POETRY_FORM_DESCRIPTION)
  (word_to_phonemes : PRONUNCIATION_DICT) :
  length poem_lines = length description.2 →
  phonemes_nonempty word_to_phonemes →
  Forall (λ line, Py.split line ≠ []) poem_lines →
  ∃ labels bad_lines,
    get_rhyme_label_to_lines description.2 = Some labels ∧
    check_rhyme_scheme poem_lines description word_to_phonemes
    = Some bad_lines ∧
    ∀ inner,
      inner ∈ bad_lines ↔
      ∃ label js,
        (label, js) ∈ labels ∧ label ≠ "*" ∧
        mapM (Py.getitem poem_lines) js = Some inner ∧
        all_lines_rhyme poem_lines js word_to_phonemes = Some false.
Proof.
  intros Hlen Hd Hwords.
  destruct (get_rhyme_label_to_lines_inv description.2)
    as (m & Hm & Hinv).
  destruct (check_groups_report poem_lines word_to_phonemes m [])
    as (out & Hout & Hmem).
  { intros label js Hin.
    destruct (group_indices _ _ _ _ Hinv Hin) as [_ Hjs].
    assert (∀ j, j ∈ js →
              ∃ line, Py.getitem poem_lines j = Some line ∧
                      Py.split line ≠ []) as Hline.
    { intros j (k & -> & Hk)%Hjs. rewrite getitem_of_nat.
      destruct (lookup_lt_is_Some_2 poem_lines k) as [line Hl].
      { rewrite Hlen. by eapply lookup_lt_Some. }
      exists line. split; [done|]. rewrite Forall_forall in Hwords.
      by eapply Hwords, list_elem_of_lookup_2. }
    split.
    - apply mapM_is_Some_2, Forall_forall. intros j Hj.
      destruct (Hline j Hj) as (line & Hl & _). simpl. rewrite Hl.
      by eexists.
    - destruct (all_lines_rhyme_spec poem_lines js word_to_phonemes)
        as (b & -> & _); [done| |by eexists].
      apply Forall_forall. intros j Hj.
      destruct (Hline j Hj) as (line & Hl & Hs). unfold last_word.
      rewrite Hl. simpl. by rewrite getitem_last, last_is_Some. }
  exists m, out. split; [done|]. split.
  - unfold check_rhyme_scheme. by rewrite Hm.
  - intros inner. rewrite Hmem. unfold failing_group. split; [|auto].
    by intros [?%elem_of_nil|?].
Qed.

Lemma check_rhyme_scheme_reports_witness :
  ∃ labels bad_lines,
    get_rhyme_label_to_lines ["A"; "A"; "B"] = Some labels ∧
    check_rhyme_scheme mouse_poem ([0; 0; 0], ["A"; "A"; "B"]) mouse_dict
    = Some bad_lines ∧
    ∀ inner,
      inner ∈ bad_lines ↔
      ∃ label js,
        (label, js) ∈ labels ∧ label ≠ "*" ∧
        mapM (Py.getitem mouse_poem) js = Some inner ∧
        all_lines_rhyme mouse_poem js mouse_dict = Some false.
Proof.
  apply (check_rhyme_scheme_reports
           mouse_poem ([0; 0; 0], ["A"; "A"; "B"]) mouse_dict).
  - reflexivity.
  - apply mouse_dict_nonempty.
  - repeat constructor; discriminate.
Defined.

(** ** The order of the groups of [get_rhyme_label_to_lines] *)

Lemma first_indices_set_same (m : Py.odict string (list Z)) x js v :
  Py.get m x = Some js → head v = head js →
  first_indices (Py.set m x v) = first_indices m.
Proof.
  unfold first_indices. intros Hget Hv.
  induction m as [|[k w] m IH]; [done|]. simpl in *.
  destruct (decide (x = k)) as [->|Hne]; csimpl.
  - injection Hget as ->. by rewrite Hv.
  - by rewrite IH.
Qed.

Lemma odict_set_fresh_twice (m : Py.odict string (list Z)) x v v' :
  x ∉ m.*1 → Py.set (Py.set m x v) x v' = m ++ [(x, v')].
Proof.
  induction m as [|[k w] m IH]; csimpl; intros Hx.
  - by rewrite decide_True.
  - apply not_elem_of_cons in Hx as [Hne Hx].
    rewrite decide_False by done. simpl.
    rewrite decide_False by done. by rewrite IH.
Qed.

Lemma first_indices_get (m : Py.odict string (list Z)) x js firsts :
  first_indices m = Some <$> firsts → Py.get m x = Some js →
  ∃ i, head js = Some i.
Proof.
  intros Hf Hget. apply odict_get_elem_of in Hget.
  apply (list_elem_of_fmap_2 (λ item, head item.2)) in Hget.
  fold (first_indices m) in Hget. rewrite Hf in Hget.
  apply list_elem_of_fmap in Hget as (i & Hi & _). eauto.
Qed.

Lemma label_step_order rs x m m' :
  order_inv (length rs) m →
  label_step (rs ++ [x]) m (Z.of_nat (length rs)) = Some m' →
  order_inv (S (length rs)) m'.
Proof.
  intros (firsts & Hf & Hs & Hlt). unfold label_step.
  rewrite getitem_of_nat, list_lookup_middle by done. simpl.
  destruct (Py.contains m x) eqn:Hc; simpl.
  - destruct (Py.get m x) as [js|] eqn:Hx; simpl; [|done].
    intros [= <-]. exists firsts. split_and!; [|done|].
    + rewrite (first_indices_set_same m x js); [done..|].
      destruct (first_indices_get _ _ _ _ Hf Hx) as [i Hi].
      by destruct js.
    + intros i Hi. specialize (Hlt i Hi). lia.
  - assert (x ∉ m.*1) as Hx.
    { intros ?%odict_contains. congruence. }
    rewrite odict_get_set, decide_True by done. simpl.
    intros [= <-]. rewrite odict_set_fresh_twice by done.
    exists (firsts ++ [Z.of_nat (length rs)]). split_and!.
    + unfold first_indices in *. by rewrite !fmap_app, Hf.
    + apply StronglySorted_app_2; [|done|repeat constructor].
      intros i ? Hi ->%list_elem_of_singleton. by apply Hlt.
    + intros i [Hi| ->%list_elem_of_singleton]%elem_of_app; [|lia].
      specialize (Hlt i Hi). lia.
Qed.

Lemma get_rhyme_label_to_lines_order_inv rs m :
  get_rhyme_label_to_lines rs = Some m → order_inv (length rs) m.
Proof.
  revert m. induction rs as [|x rs IH] using rev_ind; intros m.
  - intros [= <-]. exists []. split_and!; [done|constructor|].
    by intros i ?%elem_of_nil.
  - unfold get_rhyme_label_to_lines in *.
    rewrite length_app, Nat.add_1_r, range_snoc, for_app.
    rewrite (for_ext _ _ (label_step rs))
      by (intros; by apply label_step_prefix).
    destruct (Py.for_ (Py.range (length rs)) (label_step rs) [])
      as [m0|]; simpl; [|done].
    destruct (label_step (rs ++ [x]) m0 _) as [m1|] eqn:Hstep;
      simpl; [|done].
    intros [= <-]. eapply label_step_order; [|done]. by apply IH.
Qed.

(** The groups are in the order of their first line: no group is
    empty, and the first indices of the groups, taken in the order of
    the keys, are strictly increasing. *)
Theorem get_rhyme_label_to_lines_order (rhyme_scheme : list string) :
  ∃ labels firsts,
    get_rhyme_label_to_lines rhyme_scheme = Some labels ∧
    (λ item, head item.2) <$> labels = Some <$> firsts ∧
    StronglySorted Z.lt firsts.
Proof.
  destruct (get_rhyme_label_to_lines_inv rhyme_scheme) as (m & Hm & _).
  destruct (get_rhyme_label_to_lines_order_inv _ _ Hm)
    as (firsts & Hf & Hs & _).
  by exists m, firsts.
Qed.

(** * Properties of [poetry_reader.py] *)

(** ** Words of a line *)

Lemma split_chars_nonempty cur s w : w ∈ Py.split_chars cur s → w ≠ [].
Proof.
  assert (∀ a (l : list ascii), reverse (a :: l) ≠ []) as Hrev.
  { intros a l Hr. apply (f_equal length) in Hr.
    rewrite length_reverse in Hr. done. }
  revert cur. induction s as [|c s IH]; intros cur; simpl.
  - destruct cur as [|a cur]; [by intros ?%elem_of_nil|].
    intros ->%list_elem_of_singleton. apply Hrev.
  - destruct (Py.is_space c); [|apply IH].
    destruct cur as [|a cur]; [apply IH|].
    intros [->|?]%elem_of_cons; [apply Hrev|by eapply IH].
Qed.

Lemma split_nonempty line w : w ∈ Py.split line → w ≠ "".
Proof.
  unfold Py.split. intros (cs & -> & Hcs)%list_elem_of_fmap Hempty.
  apply split_chars_nonempty in Hcs. apply Hcs.
  by rewrite <- (chars_str cs), Hempty.
Qed.

Lemma is_space_whitespace c : Py.is_space c = true ↔ c ∈ Py.whitespace.
Proof.
  rewrite <- (bool_decide_eq_true (c ∈ _)).
  assert (Py.is_space c = bool_decide (c ∈ Py.whitespace)) as ->; [|done].
  destruct c as [[] [] [] [] [] [] [] []]; vm_compute; reflexivity.
Qed.

Lemma lstrip_ws_Exists s :
  Exists (λ c, Py.is_space c = false) (Py.lstrip_chars Py.whitespace s) ↔
  Exists (λ c, Py.is_space c = false) s.
Proof.
  induction s as [|c s IH]; simpl; [done|].
  case_bool_decide as Hc; [|done].
  rewrite IH, Exists_cons. apply is_space_whitespace in Hc.
  split; [auto|]. intros [?|?]; [congruence|done].
Qed.

Lemma Exists_reverse {A} (P : A → Prop) l : Exists P (reverse l) ↔ Exists P l.
Proof. rewrite !Exists_exists. by setoid_rewrite elem_of_reverse. Qed.

(** [str.strip()] neither adds nor removes a character that is not
    whitespace. *)
Lemma strip_ws_Exists line :
  Exists (λ c, Py.is_space c = false) (Py.chars (Py.strip_ws line)) ↔
  Exists (λ c, Py.is_space c = false) (Py.chars line).
Proof.
  unfold Py.strip_ws, Py.rstrip_chars. rewrite chars_str.
  by rewrite Exists_reverse, lstrip_ws_Exists, Exists_reverse,
    lstrip_ws_Exists.
Qed.

Lemma split_strip_ws_nil line :
  Py.split (Py.strip_ws line) = [] ↔
  Forall (λ c, Py.is_space c = true) (Py.chars line).
Proof.
  rewrite split_nil. split; intros Hall.
  - apply dec_stable. rewrite not_all_space, <- strip_ws_Exists.
    rewrite <- not_all_space. by intros Hn.
  - apply dec_stable. rewrite not_all_space, strip_ws_Exists.
    rewrite <- not_all_space. by intros Hn.
Qed.

(** ** [read_pronunciation] *)

(** A line made of a no-break space and a line end has no word:
    [parts[0]] raises. *)
Example read_pronunciation_nbsp_line :
  read_pronunciation [Py.str [ascii_of_nat 160; ascii_of_nat 10]] = None.
Proof. reflexivity. Qed.

Example read_pronunciation_small :
  read_pronunciation pronunciation_small
  = Some (list_to_map
            [("CAMPBELL", ["K"; "AE1"; "M"; "B"; "AH0"; "L"]);
             ("GRIES", ["G"; "R"; "AY1"; "Z"]);
             ("SMITH", ["S"; "M"; "IH1"; "TH"])]).
Proof. vm_compute. reflexivity. Qed.

Lemma pronunciation_step_cases d line d' :
  pronunciation_step d line = Some d' →
  (Py.startswith line ";;;" = true ∧ d' = d) ∨
  (∃ word phonemes,
     Py.startswith line ";;;" = false ∧
     Py.split (Py.strip_ws line) = word :: phonemes ∧
     d' = <[word := phonemes]> d).
Proof.
  unfold pronunciation_step.
  destruct (Py.startswith line ";;;"); simpl.
  - intros [= <-]. by left.
  - destruct (Py.split (Py.strip_ws line)) as [|word phonemes]; [done|].
    intros [= <-]. right. by exists word, phonemes.
Qed.

Lemma read_pronunciation_snoc file line :
  read_pronunciation (file ++ [line])
  = d ← read_pronunciation file; pronunciation_step d line.
Proof.
  unfold read_pronunciation. rewrite for_app.
  destruct (Py.for_ file pronunciation_step ∅) as [d|]; simpl; [|done].
  by destruct (pronunciation_step d line).
Qed.

(** A dictionary that [read_pronunciation] returns has no empty word
    and no empty phoneme. *)
Theorem read_pronunciation_well_formed (pronunciation_file : list string)
  (word_to_phonemes : PRONUNCIATION_DICT) :
  read_pronunciation pronunciation_file = Some word_to_phonemes →
  word_to_phonemes !! "" = None ∧ phonemes_nonempty word_to_phonemes.
Proof.
  unfold read_pronunciation.
  apply (for_invariant (λ d, d !! "" = None ∧ phonemes_nonempty d)).
  - split; [done|]. apply map_Forall_empty.
  - intros d line d' _ [Hempty Hph] Hstep.
    apply pronunciation_step_cases in Hstep
      as [[_ ->]|(word & phonemes & _ & Hparts & ->)]; [done|].
    assert (∀ w, w ∈ word :: phonemes → w ≠ "") as Hne.
    { intros w Hw. apply (split_nonempty (Py.strip_ws line)).
      by rewrite Hparts. }
    split.
    + rewrite lookup_insert_ne; [done|]. apply Hne. left.
    + apply map_Forall_insert_2; [|done].
      apply Forall_forall. intros p Hp. apply Hne. by right.
Qed.

Lemma read_pronunciation_well_formed_witness :
  phonemes_nonempty
    (list_to_map
       [("CAMPBELL", ["K"; "AE1"; "M"; "B"; "AH0"; "L"]);
        ("GRIES", ["G"; "R"; "AY1"; "Z"]);
        ("SMITH", ["S"; "M"; "IH1"; "TH"])]).
Proof.
  apply (read_pronunciation_well_formed pronunciation_small).
  vm_compute. reflexivity.
Defined.

(** [read_pronunciation] raises exactly when a line that is not a
    comment has no word: an empty or whitespace-only line. *)
Theorem read_pronunciation_raises_iff (pronunciation_file : list string) :
  read_pronunciation pronunciation_file = None ↔
  ∃ line,
    line ∈ pronunciation_file ∧
    Py.startswith line ";;;" = false ∧
    Forall (λ c, Py.is_space c = true) (Py.chars line).
Proof.
  induction pronunciation_file as [|line file IH] using rev_ind.
  - split; [done|]. by intros (? & ?%elem_of_nil & _).
  - rewrite read_pronunciation_snoc.
    destruct (read_pronunciation file) as [d|] eqn:Hd; simpl.
    + unfold pronunciation_step.
      destruct (Py.startswith line ";;;") eqn:Hc; simpl.
      * split; [done|]. intros (l & [Hl| ->%list_elem_of_singleton]%elem_of_app
                                  & Hl1 & Hl2).
        -- assert (Some d = None) as Hn; [|done]. apply IH. eauto.
        -- congruence.
      * destruct (Py.split (Py.strip_ws line)) as [|w ph] eqn:Hparts; simpl.
        -- split; [|done]. intros _. exists line. split_and!; [|done|].
           ++ apply elem_of_app. right. left.
           ++ by apply split_strip_ws_nil.
        -- split; [done|].
           intros (l & [Hl| ->%list_elem_of_singleton]%elem_of_app
                     & Hl1 & Hl2).
           ++ assert (Some d = None) as Hn; [|done]. apply IH. eauto.
           ++ apply split_strip_ws_nil in Hl2. congruence.
    + split; [|done]. intros _.
      destruct (proj1 IH eq_refl) as (l & Hl & ?).
      exists l. split; [|done]. apply elem_of_app. by left.
Qed.

(** Every entry of the dictionary is read off a line that is not a
    comment (the word first, then its phonemes), and the word of every
    such line is in the dictionary. *)
Theorem read_pronunciation_entries (pronunciation_file : list string)
  (word_to_phonemes : PRONUNCIATION_DICT) :
  read_pronunciation pronunciation_file = Some word_to_phonemes →
  (∀ word phonemes,
     word_to_phonemes !! word = Some phonemes →
     ∃ line, line ∈ pronunciation_file ∧
             Py.startswith line ";;;" = false ∧
             Py.split (Py.strip_ws line) = word :: phonemes) ∧
  (∀ line word phonemes,
     line ∈ pronunciation_file →
     Py.startswith line ";;;" = false →
     Py.split (Py.strip_ws line) = word :: phonemes →
     is_Some (word_to_phonemes !! word)).
Proof.
  revert word_to_phonemes.
  induction pronunciation_file as [|line file IH] using rev_ind; intros d.
  - intros [= <-]. split.
    + intros w ph. by rewrite lookup_empty.
    + by intros l w ph ?%elem_of_nil.
  - rewrite read_pronunciation_snoc.
    destruct (read_pronunciation file) as [d0|]; simpl; [|done].
    destruct (IH d0 eq_refl) as [IH1 IH2]. intros Hstep.
    apply pronunciation_step_cases in Hstep
      as [[Hc ->]|(w0 & ph0 & Hc & Hparts & ->)].
    + split.
      * intros w ph Hw. destruct (IH1 w ph Hw) as (l & Hl & ?).
        exists l. split; [|done]. apply elem_of_app. by left.
      * intros l w ph [Hl| ->%list_elem_of_singleton]%elem_of_app ? ?;
          [by eapply IH2|congruence].
    + split.
      * intros w ph. rewrite lookup_insert.
        destruct (decide (w0 = w)) as [<-|Hne].
        -- intros [= <-]. exists line. split; [|done].
           apply elem_of_app. right. left.
        -- intros Hw. destruct (IH1 w ph Hw) as (l & Hl & ?).
           exists l. split; [|done]. apply elem_of_app. by left.
      * intros l w ph [Hl| ->%list_elem_of_singleton]%elem_of_app Hlc Hlp.
        -- rewrite lookup_insert. destruct (decide (w0 = w)); [by eexists|].
           by eapply IH2.
        -- assert (w = w0) as -> by congruence.
           rewrite lookup_insert_eq. by eexists.
Qed.

Lemma read_pronunciation_entries_witness :
  ∃ line, line ∈ pronunciation_small ∧
          Py.startswith line ";;;" = false ∧
          Py.split (Py.strip_ws line) = "GRIES" :: ["G"; "R"; "AY1"; "Z"].
Proof.
  apply (read_pronunciation_entries pronunciation_small
           (list_to_map
              [("CAMPBELL", ["K"; "AE1"; "M"; "B"; "AH0"; "L"]);
               ("GRIES", ["G"; "R"; "AY1"; "Z"]);
               ("SMITH", ["S"; "M"; "IH1"; "TH"])])).
  - vm_compute. reflexivity.
  - reflexivity.
Defined.

(** ** [read_poetry_form_descriptions] *)

Example read_poetry_form_descriptions_small :
  read_poetry_form_descriptions Py.int_decimal poetry_forms_small
  = Some (list_to_map
            [("Haiku", ([5; 7; 5], ["*"; "*"; "*"]));
             ("Limerick", ([8; 8; 5; 5; 8], ["A"; "A"; "B"; "B"; "A"]))]).
Proof. vm_compute. reflexivity. Qed.

Lemma forms_step_inv int st line st' :
  forms_inv st → forms_step int st line = Some st' → forms_inv st'.
Proof.
  intros [Hdict Hlen]. unfold forms_step.
  case_bool_decide as Hblank.
  - case_bool_decide as Hname; intros [= <-]; [|done].
    split; [|done]. simpl. by apply map_Forall_insert_2.
  - case_bool_decide as Hname; [by intros [= <-]|].
    destruct (Py.getitem _ 0) as [p0|]; simpl; [|done].
    destruct (int p0) as [n|]; simpl; [|done].
    destruct (Py.getitem _ 1) as [p1|]; simpl; [|done].
    intros [= <-]. split; [done|]. simpl. rewrite !length_app. simpl. lia.
Qed.

(** Every description that [read_poetry_form_descriptions] returns has
    as many syllable counts as rhyme labels, under a name that is not
    empty, whatever [int()] does. *)
Theorem read_poetry_form_descriptions_lengths (int : string → option Z)
  (poetry_forms_file : list string)
  (forms : gmap string (list Z * list string)) :
  read_poetry_form_descriptions int poetry_forms_file = Some forms →
  map_Forall
    (λ name description,
       name ≠ "" ∧ length description.1 = length description.2)
    forms.
Proof.
  unfold read_poetry_form_descriptions.
  destruct (Py.for_ _ _ _) as [st|] eqn:Hloop; simpl; [|done].
  assert (forms_inv st) as [Hdict Hlen].
  { revert Hloop. apply for_invariant.
    - split; [apply map_Forall_empty|done].
    - intros s line s' _. apply forms_step_inv. }
  case_bool_decide as Hname; intros [= <-]; [|done].
  by apply map_Forall_insert_2.
Qed.

Lemma read_poetry_form_descriptions_lengths_witness :
  map_Forall
    (λ name description,
       name ≠ "" ∧ length description.1 = length description.2)
    (list_to_map
       [("Haiku", ([5; 7; 5], ["*"; "*"; "*"]));
        ("Limerick", ([8; 8; 5; 5; 8], ["A"; "A"; "B"; "B"; "A"]))]
     : gmap string (list Z * list string)).
Proof.
  apply (read_poetry_form_descriptions_lengths
           Py.int_decimal poetry_forms_small).
  vm_compute. reflexivity.
Defined.

(** ** A word and itself *)

(** With non-empty phonemes in the dictionary, a word rhymes with
    itself exactly when it is in the dictionary. *)
Theorem words_rhyme_reflexive (word : string)
  (word_to_phonemes : PRONUNCIATION_DICT) :
  phonemes_nonempty word_to_phonemes →
  words_rhyme word word word_to_phonemes
  = Some (bool_decide (is_Some (word_to_phonemes !! transform_string word))).
Proof.
  intros Hd. unfold words_rhyme.
  destruct (word_to_phonemes !! transform_string word) as [ph|] eqn:Hph.
  - destruct (get_last_syllable_is_Some ph) as [k ->];
      [by apply (Hd _ _ Hph)|].
    simpl. by rewrite !bool_decide_eq_true_2.
  - by rewrite bool_decide_eq_false_2 by (by intros [? ?]).
Qed.

Lemma words_rhyme_reflexive_witness :
  words_rhyme "House!" "House!" mouse_dict
  = Some (bool_decide (is_Some (mouse_dict !! transform_string "House!"))).
Proof.
  apply (words_rhyme_reflexive "House!" mouse_dict).
  apply mouse_dict_nonempty.
Defined.
